(** * f5-oslbaasv2-ops: the template expander and batch executor of [main.go]

    A shallow embedding of [src/main.go] and the properties of its
    natural-language specification.

    Go strings are byte sequences and are modelled as [list ascii]; Go's
    [int] and [time.Duration] are 64-bit and are modelled as [Z] with the
    wrap-around written out.  The functions of Go's standard library that
    the program calls ([strings.Split], [strconv.Atoi], [regexp], ...) are
    modelled in modules named after their packages.  The program's own
    functions keep their names.  Writes to the logger are not modelled. *)

From Stdlib Require Import ZArith Ascii String List DecimalString DecimalPos Lia.
From stdpp Require Import gmap strings list.

Local Open Scope char_scope.
Local Open Scope Z_scope.

(** ** Strings, integers, results *)

Abbreviation gostring := (list ascii).

(** A string literal of the source. *)
Definition str (s : string) : gostring := list_ascii_of_string s.
Arguments str : simpl never.

(** The outcome of running a Go function whose loops may not end and whose
    indexing may panic.  [Timeout] is the model running out of fuel. *)
Inductive res (A : Type) : Type :=
| Ret (a : A)
| Panic (msg : gostring)
| Timeout.
Arguments Ret {A} a.
Arguments Panic {A} msg.
Arguments Timeout {A}.

Definition res_bind {A B : Type} (m : res A) (f : A → res B) : res B :=
  match m with
  | Ret a => f a
  | Panic msg => Panic msg
  | Timeout => Timeout
  end.

Notation "'let!' x ':=' m 'in' k" := (res_bind m (λ x, k))
  (at level 10, x name, m at level 100, k at level 200).

(** Go's [int] on a 64-bit platform. *)
Definition maxInt : Z := 9223372036854775807.
Definition minInt : Z := -9223372036854775808.

(** Signed 64-bit wrap-around, as Go defines it for [int] arithmetic. *)
Definition wrapInt (z : Z) : Z := (z + 2 ^ 63) mod 2 ^ 64 - 2 ^ 63.

Definition isDigit (c : ascii) : bool :=
  ((48 <=? nat_of_ascii c) && (nat_of_ascii c <=? 57))%nat.

Definition isLetter (c : ascii) : bool :=
  (((65 <=? nat_of_ascii c) && (nat_of_ascii c <=? 90))
   || ((97 <=? nat_of_ascii c) && (nat_of_ascii c <=? 122)))%nat.

(** The longest prefix of [s] whose characters satisfy [p], and the rest. *)
Fixpoint span (p : ascii → bool) (s : gostring) : gostring * gostring :=
  match s with
  | [] => ([], [])
  | c :: r =>
      if p c then let '(a, b) := span p r in (c :: a, b) else ([], s)
  end.

(** Indexing a slice: Go panics when the index is out of range. *)
Definition index {A : Type} (l : list A) (i : nat) : res A :=
  match l !! i with
  | Some a => Ret a
  | None => Panic (str "index out of range")
  end.

Module Strings.

(** [strings.Split(s, sep)] for a separator of one byte, which is how the
    program always calls it.  The empty string splits into one empty
    string. *)
Fixpoint Split (s : gostring) (sep : ascii) : list gostring :=
  match s with
  | [] => [[]]
  | c :: r =>
      if Ascii.eqb c sep then [] :: Split r sep
      else match Split r sep with
           | h :: t => (c :: h) :: t
           | [] => [[c]]
           end
  end.

(** [strings.Join(elems, sep)]. *)
Fixpoint Join (elems : list gostring) (sep : gostring) : gostring :=
  match elems with
  | [] => []
  | [e] => e
  | e :: es => e ++ sep ++ Join es sep
  end.

(** [strings.HasPrefix(s, prefix)]. *)
Fixpoint HasPrefix (s prefix : gostring) : bool :=
  match prefix, s with
  | [], _ => true
  | p :: prefix', c :: s' => Ascii.eqb c p && HasPrefix s' prefix'
  | _ :: _, [] => false
  end.

End Strings.

Module Strconv.

Inductive NumError : Type := ErrSyntax | ErrRange.

Definition digitVal (c : ascii) : option Z :=
  if isDigit c then Some (Z.of_nat (nat_of_ascii c) - 48) else None.

(** The digit loop of [strconv.ParseUint(s, 10, 64)]: the first character
    that is not a digit is a syntax error, the first step that exceeds 64
    bits is a range error with the largest value. *)
Fixpoint parseUint (s : gostring) (n : Z) : Z * option NumError :=
  match s with
  | [] => (n, None)
  | c :: r =>
      match digitVal c with
      | None => (0, Some ErrSyntax)
      | Some d =>
          if 2 ^ 64 <=? n * 10 + d then (2 ^ 64 - 1, Some ErrRange)
          else parseUint r (n * 10 + d)
      end
  end.

(** [strconv.Atoi(s)]: the value and the error, if any.  A syntax error
    comes with the value 0; a range error comes with the nearest
    representable value. *)
Definition Atoi (s : gostring) : Z * option NumError :=
  let '(neg, body) :=
    match s with
    | "-" :: r => (true, r)
    | "+" :: r => (false, r)
    | _ => (false, s)
    end in
  match body with
  | [] => (0, Some ErrSyntax)
  | _ :: _ =>
      match parseUint body 0 with
      | (_, Some ErrSyntax) => (0, Some ErrSyntax)
      | (un, e) =>
          if negb neg && (2 ^ 63 <=? un) then (maxInt, Some ErrRange)
          else if neg && (2 ^ 63 <? un) then (minInt, Some ErrRange)
          else (if neg then - un else un, e)
      end
  end.

End Strconv.

Module Fmt.

(** [fmt.Sprintf("%d", i)]: the decimal representation, without padding. *)
Definition Sprintf_d (i : Z) : gostring :=
  list_ascii_of_string (NilZero.string_of_int (Z.to_int i)).

End Fmt.

(** ** The Value-List Parser *)

(** [regexp.MustCompile(`^\d+\-\d+$`).MatchString(n)]: one or more digits,
    a hyphen, one or more digits, and nothing else. *)
Definition rangePattern_MatchString (n : gostring) : bool :=
  match span isDigit n with
  | (_ :: _, "-" :: b) =>
      match b with
      | [] => false
      | _ :: _ => forallb isDigit b
      end
  | _ => false
  end.

(** [for i := s; i <= e; i++ { rlt = append(rlt, fmt.Sprintf("%d", i)) }] *)
Fixpoint rangeLoop (fuel : nat) (i e : Z) (rlt : list gostring)
  : res (list gostring) :=
  match fuel with
  | O => Timeout
  | S fuel' =>
      if i <=? e then rangeLoop fuel' (wrapInt (i + 1)) e (rlt ++ [Fmt.Sprintf_d i])
      else Ret rlt
  end.

(** [for _, n := range ls { ... }] of [ParseVarValues].  The errors of
    [strconv.Atoi] are assigned to the blank identifier. *)
Fixpoint parseTokens (fuel : nat) (ls : list gostring) (rlt : list gostring)
  : res (list gostring) :=
  match ls with
  | [] => Ret rlt
  | n :: ls' =>
      let matched := rangePattern_MatchString n in
      if matched then
        let se := Strings.Split n "-" in
        let! se0 := index se 0 in
        let! se1 := index se 1 in
        let s := fst (Strconv.Atoi se0) in
        let e := fst (Strconv.Atoi se1) in
        let! rlt' := rangeLoop fuel s e rlt in
        parseTokens fuel ls' rlt'
      else parseTokens fuel ls' (rlt ++ [n])
  end.

Definition ParseVarValues (fuel : nat) (v : gostring) : res (list gostring) :=
  let rlt := [] in
  let ls := Strings.Split v "," in
  parseTokens fuel ls rlt.

(** ** Regular expressions *)

Module Regexp.

(** The character classes [[a-zA-Z_]] and [[a-zA-Z0-9_]]. *)
Definition isIdentStart (c : ascii) : bool := isLetter c || Ascii.eqb c "_".
Definition isIdentChar (c : ascii) : bool :=
  isLetter c || isDigit c || Ascii.eqb c "_".

(** A match of [%\{[a-zA-Z_][a-zA-Z0-9_]*\}] at the start of [s]: the
    name between the braces and the text after the match.  The closing
    brace is not an identifier character, so the greedy star has one way
    to match. *)
Definition matchVarAt (s : gostring) : option (gostring * gostring) :=
  match s with
  | "%" :: "{" :: c :: r =>
      if isIdentStart c then
        match span isIdentChar r with
        | (run, "}" :: rest) => Some (c :: run, rest)
        | _ => None
        end
      else None
  | _ => None
  end.

(** The text of a placeholder. *)
Definition placeholder (name : gostring) : gostring :=
  "%" :: "{" :: name ++ ["}"].

(** [varRegexp.FindString(s)]: the text of the leftmost match, the empty
    string when there is none. *)
Fixpoint FindString (s : gostring) : gostring :=
  match s with
  | [] => []
  | _ :: r =>
      match matchVarAt s with
      | Some (name, _) => placeholder name
      | None => FindString r
      end
  end.

(** [varRegexp.FindAllString(s, -1)]: the successive matches, which do not
    overlap.  [skip] counts the characters of the last match still to be
    passed over. *)
Fixpoint findAllFrom (skip : nat) (s : gostring) : list gostring :=
  match s with
  | [] => []
  | _ :: r =>
      match skip with
      | S k => findAllFrom k r
      | O =>
          match matchVarAt s with
          | Some (name, _) =>
              placeholder name :: findAllFrom (length name + 2) r
          | None => findAllFrom 0 r
          end
      end
  end.

Definition FindAllString (s : gostring) : list gostring := findAllFrom 0 s.

(** [extract] of package regexp: the group name after a [$] of a
    replacement text, written [name] or [{name}], and the number of bytes
    it takes.  Exact on ASCII text: a byte above 127 ends the name. *)
Definition extract (t : gostring) : option (gostring * nat) :=
  match t with
  | "{" :: t' =>
      match span isIdentChar t' with
      | (c :: run, "}" :: _) => Some (c :: run, S (S (length (c :: run))))
      | _ => None
      end
  | _ =>
      match span isIdentChar t with
      | (c :: run, _) => Some (c :: run, length (c :: run))
      | _ => None
      end
  end.

(** The text a group reference stands for when the expression has no
    capture group: group 0 is the match, any other number or name is
    empty.  A number with a leading zero counts as a name. *)
Definition group (matched name : gostring) : gostring :=
  if bool_decide (name = ["0"]) then matched else [].

(** [Regexp.expand]: the replacement text [t] with [$$] turned into [$],
    [$name] and [${name}] into their groups, a malformed [$] kept. *)
Fixpoint expandFrom (matched : gostring) (skip : nat) (t : gostring)
  : gostring :=
  match t with
  | [] => []
  | c :: r =>
      match skip with
      | S k => expandFrom matched k r
      | O =>
          if Ascii.eqb c "$" then
            match r with
            | "$" :: _ => "$" :: expandFrom matched 1 r
            | _ =>
                match extract r with
                | Some (name, used) =>
                    group matched name ++ expandFrom matched used r
                | None => "$" :: expandFrom matched 0 r
                end
            end
          else c :: expandFrom matched 0 r
      end
  end.

Definition expand (matched repl : gostring) : gostring :=
  expandFrom matched 0 repl.

(** [regexp.MustCompile(text).ReplaceAllString(src, repl)] for a [text]
    that is a match of [varRegexp].  Such a text is a percent sign, a
    brace that no digit follows (so it does not open a repetition), an
    identifier and a closing brace: as an expression it matches itself
    and nothing else, and has no capture group.  Every match that does
    not overlap an earlier one is replaced by the expansion of [repl]. *)
Fixpoint replaceAllFrom (text repl : gostring) (skip : nat) (src : gostring)
  : gostring :=
  match src with
  | [] => []
  | c :: r =>
      match skip with
      | S k => replaceAllFrom text repl k r
      | O =>
          if Strings.HasPrefix src text then
            expand text repl ++ replaceAllFrom text repl (length text - 1) r
          else c :: replaceAllFrom text repl 0 r
      end
  end.

Definition ReplaceAllString (text src repl : gostring) : gostring :=
  replaceAllFrom text repl 0 src.

End Regexp.

(** ** The Template Expander *)

(** [s[lo:hi]] *)
Definition slice (s : gostring) (lo hi : nat) : gostring :=
  take (hi - lo) (drop lo s).

(** [for _, k := range l { s = body k s }], stopping at the first failure. *)
Fixpoint forRange {A S : Type} (l : list A) (body : A → S → res S) (s : S)
  : res S :=
  match l with
  | [] => Ret s
  | k :: l' => let! s' := body k s in forRange l' body s'
  end.

(** [ConstructFromTemplate] appends to the global [cmdList], which is passed
    in and returned.  A key that is absent from a Go map reads as the empty
    slice.  [fuel] bounds the depth of the recursion. *)
Fixpoint ConstructFromTemplate (fuel : nat) (template : gostring)
    (variables : gmap gostring (list gostring)) (cmdList : list gostring)
  : res (list gostring) :=
  match fuel with
  | O => Timeout
  | S fuel' =>
      let varInTmp := Regexp.FindString template in
      match varInTmp with
      | [] => Ret (cmdList ++ [template])
      | _ :: _ =>
          let l := length varInTmp in
          let varName := slice varInTmp 2 (l - 1) in
          forRange (variables !!! varName)
            (λ k cmdList,
               let replaced := Regexp.ReplaceAllString varInTmp template k in
               ConstructFromTemplate fuel' replaced variables cmdList)
            cmdList
      end
  end.

(** ** The external world and the encoding/json package *)

(** How a spawned process ends, as [RunCommand] sees it. *)
Inductive ProcOutcome : Type :=
| StartFails (e : gostring)
    (** [c.Start()] returns an error with description [e]; there is no
        process state *)
| WaitFails (stdout stderr e : gostring) (code : Z)
    (** [c.Wait()] returns an error with description [e];
        [c.ProcessState.ExitCode()] is [code] *)
| WaitOk (stdout stderr : gostring).
    (** [c.Wait()] returns nil: the process has exited with status 0 *)

(** [NeutronResponse] *)
Record NeutronResponse : Type := {
  ID : gostring;
  ProvisioningStatus : gostring;
}.

(** What the program takes from outside: the JSON library, the clock and the
    processes it spawns.  The run is sequential, so the clock is the
    sequence of its readings and a process is known by its rank among the
    spawned processes and its argument vector. *)
Class Env : Type := {
  JObject : Type;
    (** [map[string]interface{}] *)
  nilMap : JObject;
    (** the nil map, the zero value of the field [Out] *)
  json_Unmarshal : gostring → option JObject;
    (** [json.Unmarshal(out.Bytes(), &o)]: [None] when it returns an error *)
  messageMap : gostring → JObject;
    (** [map[string]interface{}{"message": out.Bytes()}] *)
  sprint_id : JObject → gostring;
    (** [fmt.Sprintf("%s", o["id"])] *)
  decodeStatus : JObject → NeutronResponse;
    (** [json.Marshal(o)] followed by [json.Unmarshal] into a
        [NeutronResponse], errors ignored *)
  clock : nat → Z;
    (** the n-th reading of [time.Now()], in nanoseconds *)
  process : nat → list gostring → ProcOutcome;
    (** the n-th spawned process, given its argument vector *)
}.

(** [fe.Sub(fs)]: the difference, kept within the range of a Duration. *)
Definition Time_Sub (fe fs : Z) : Z := Z.max minInt (Z.min maxInt (fe - fs)).

(** [cmdPrefix] *)
Definition cmdPrefix : gostring := str "neutron lbaas-".
Arguments cmdPrefix : simpl never.

(** The first three lines of [CheckExecution]: the second word of the
    command, and the second and third of its parts between hyphens. *)
Definition operationKind (command : gostring)
  : res (gostring * gostring * gostring) :=
  let args := Strings.Split command " " in
  let! args1 := index args 1 in
  let subs := Strings.Split args1 "-" in
  let! resourceType := index subs 1 in
  let! operation := index subs 2 in
  Ret (args1, resourceType, operation).

Section Pipeline.

Context {E : Env}.

(** [CommandResult] *)
Record CommandResult : Type := {
  Seq : Z;
  Command : gostring;
  Out : JObject;
  Err : gostring;
  ExitCode : Z;
  Duration : Z;
  Checked : gostring;
  CheckedDuration : Z;
}.

Definition set_Checked (v : gostring) (r : CommandResult) : CommandResult :=
  {| Seq := Seq r; Command := Command r; Out := Out r; Err := Err r;
     ExitCode := ExitCode r; Duration := Duration r;
     Checked := v; CheckedDuration := CheckedDuration r |}.

Definition set_CheckedDuration (v : Z) (r : CommandResult) : CommandResult :=
  {| Seq := Seq r; Command := Command r; Out := Out r; Err := Err r;
     ExitCode := ExitCode r; Duration := Duration r;
     Checked := Checked r; CheckedDuration := v |}.

(** The state of a run: the global [cmdResults], the argument vectors of
    the processes spawned so far, and the number of clock readings. *)
Record World : Type := {
  cmdResults : list CommandResult;
  spawned : list (list gostring);
  clockReads : nat;
}.

Definition initWorld : World :=
  {| cmdResults := []; spawned := []; clockReads := 0 |}.

(** A computation on the world.  The world is returned when the
    computation panics or runs out of fuel, too: it is the state reached
    at that point. *)
Definition M (A : Type) : Type := World → res A * World.

Definition ret {A : Type} (a : A) : M A := λ w, (Ret a, w).

Definition bind {A B : Type} (m : M A) (f : A → M B) : M B :=
  λ w, match m w with
       | (Ret a, w') => f a w'
       | (Panic msg, w') => (Panic msg, w')
       | (Timeout, w') => (Timeout, w')
       end.

Definition lift {A : Type} (r : res A) : M A := λ w, (r, w).

#[local] Notation "'let*' x ':=' m 'in' k" := (bind m (λ x, k))
  (at level 10, x name, m at level 100, k at level 200).

(** [time.Now()] *)
Definition time_Now : M Z :=
  λ w, (Ret (clock (clockReads w)),
        {| cmdResults := cmdResults w; spawned := spawned w;
           clockReads := S (clockReads w) |}).

(** [c.Start()] and, when the process has started, [c.Wait()]. *)
Definition exec_Run (argv : list gostring) : M ProcOutcome :=
  λ w, (Ret (process (length (spawned w)) argv),
        {| cmdResults := cmdResults w; spawned := spawned w ++ [argv];
           clockReads := clockReads w |}).

(** [cmdResults = append(cmdResults, cr)] *)
Definition appendResult (cr : CommandResult) : M unit :=
  λ w, (Ret tt,
        {| cmdResults := cmdResults w ++ [cr]; spawned := spawned w;
           clockReads := clockReads w |}).

(** The argument vector [RunCommand] builds from a command. *)
Definition cmdArgsOf (cmd : gostring) : list gostring :=
  let cmdArgs := Strings.Split cmd " " in
  cmdArgs ++ [str "--format"; str "json"].

(** [RunCommand].  The standard error of the process and the description
    of a start or wait error go to the same buffer, in this order.  The
    exit code of a process that has not started is -1. *)
Definition RunCommand (cmd : gostring) : M CommandResult :=
  let cmdArgs := cmdArgsOf cmd in
  let* fs := time_Now in
  let* o := exec_Run cmdArgs in
  let '(out, err, code) :=
    match o with
    | StartFails e => (nilMap, e, -1)
    | WaitFails _ stderr e code => (nilMap, stderr ++ e, code)
    | WaitOk stdout stderr =>
        (match json_Unmarshal stdout with
         | None => messageMap stdout
         | Some o => o
         end, stderr, 0)
    end in
  let* fe := time_Now in
  ret {| Seq := 0; Command := cmd; Out := out; Err := err;
         ExitCode := code; Duration := Time_Sub fe fs;
         Checked := []; CheckedDuration := 0 |}.

(** [for true { ... }] of [CheckExecution]: the value of [rlt] when the
    loop is left. *)
Fixpoint pollLoop (fuel : nat) (checkCmd : gostring) (rlt : CommandResult)
  : M CommandResult :=
  match fuel with
  | O => lift Timeout
  | S fuel' =>
      let* cr := RunCommand checkCmd in
      if negb (ExitCode cr =? 0) then
        ret (set_Checked (str "Failed to check execution of "
                            ++ Command rlt ++ str ": " ++ Err cr) rlt)
      else
        let stat := decodeStatus (Out cr) in
        if Strings.HasPrefix (ProvisioningStatus stat) (str "PENDING_") then
          pollLoop fuel' checkCmd rlt
        else
          ret (set_Checked (ID stat ++ str ": " ++ ProvisioningStatus stat)
                           rlt)
  end.

(** [CheckExecution].  Go passes [rlt] by value: the function assigns to
    its own copy of the record and returns nothing.  The model returns
    the last value of this copy, so that what the function computes can
    be stated; the caller does not receive it. *)
Definition CheckExecution (fuel : nat) (rlt : CommandResult)
  : M CommandResult :=
  let* k := lift (operationKind (Command rlt)) in
  let '(args1, resourceType, operation) := k in
  let* fs := time_Now in
  let* rlt := (if bool_decide (operation = str "create")
             || bool_decide (operation = str "update")
          then
            let checkCmd := str "neutron lbaas-" ++ resourceType
                              ++ str "-show " ++ sprint_id (Out rlt) in
            pollLoop fuel checkCmd rlt
          else ret (set_Checked (args1 ++ str " done") rlt)) in
  let* fe := time_Now in
  ret (set_CheckedDuration (wrapInt (Time_Sub fe fs + Duration rlt)) rlt).

(** [RunCmds], on the global [cmdList]. *)
Fixpoint RunCmds (fuel : nat) (cmdList : list gostring) : M unit :=
  match cmdList with
  | [] => ret tt
  | n :: cmdList' =>
      let fullCmd := cmdPrefix ++ n in
      let* cr := RunCommand fullCmd in
      let* _ := appendResult cr in
      if negb (ExitCode cr =? 0) then RunCmds fuel cmdList'
      else
        let* _ := CheckExecution fuel cr in
        RunCmds fuel cmdList'
  end.

End Pipeline.

Notation "'let*' x ':=' m 'in' k" := (bind m (λ x, k))
  (at level 10, x name, m at level 100, k at level 200).

(** Worlds for examples.  JSON objects have string fields and every
    output decodes to the object
    [{"id": "42", "provisioning_status": "ACTIVE"}]; the clock advances by
    a microsecond from one reading to the next; the processes are given. *)
Definition fieldOf (o : list (gostring * gostring)) (key : gostring)
  : option gostring :=
  (λ p, snd (snd p)) <$> list_find (λ kv, fst kv = key) o.

Definition exampleEnv (proc : nat → list gostring → ProcOutcome) : Env := {|
  JObject := list (gostring * gostring);
  nilMap := [];
  json_Unmarshal := λ _, Some [(str "id", str "42");
                               (str "provisioning_status", str "ACTIVE")];
  messageMap := λ out, [(str "message", out)];
  sprint_id := λ o, default (str "%!s(<nil>)") (fieldOf o (str "id"));
  decodeStatus := λ o,
    {| ID := default [] (fieldOf o (str "id"));
       ProvisioningStatus := default [] (fieldOf o (str "provisioning_status")) |};
  clock := λ n, 1000 * Z.of_nat n;
  process := proc;
|}.

(** Every process prints a JSON object and exits with status 0. *)
Definition allSucceed : nat → list gostring → ProcOutcome :=
  λ _ _, WaitOk (str "{...}") [].

(** No process starts. *)
Definition noneStarts : nat → list gostring → ProcOutcome :=
  λ _ _, StartFails (str "fork/exec /usr/bin/neutron: permission denied").

(** A world in which the JSON document a process prints is that of the
    resource 42 with the provisioning status given on its standard
    output. *)
Definition statusEnv (proc : nat → list gostring → ProcOutcome) : Env := {|
  JObject := list (gostring * gostring);
  nilMap := [];
  json_Unmarshal := λ out, Some [(str "id", str "42");
                                 (str "provisioning_status", out)];
  messageMap := λ out, [(str "message", out)];
  sprint_id := λ o, default (str "%!s(<nil>)") (fieldOf o (str "id"));
  decodeStatus := λ o,
    {| ID := default [] (fieldOf o (str "id"));
       ProvisioningStatus := default [] (fieldOf o (str "provisioning_status")) |};
  clock := λ n, 1000 * Z.of_nat n;
  process := proc;
|}.

(** The first [k] processes report [PENDING_CREATE], the later ones
    [ACTIVE]. *)
Definition settlesAfter (k : nat) : nat → list gostring → ProcOutcome :=
  λ i _, if (i <? k)%nat then WaitOk (str "PENDING_CREATE") []
         else WaitOk (str "ACTIVE") [].

(** Every process reports [PENDING_UPDATE]. *)
Definition alwaysPending : nat → list gostring → ProcOutcome :=
  λ _ _, WaitOk (str "PENDING_UPDATE") [].

(** ** The arguments of the program *)

(** [StringArray.IndexOf]: the loop, from the index [i] on. *)
Fixpoint indexFrom (i : Z) (sa : list gostring) (item : gostring) : Z :=
  match sa with
  | [] => -1
  | n :: sa' => if bool_decide (n = item) then i else indexFrom (i + 1) sa' item
  end.

Definition IndexOf (sa : list gostring) (item : gostring) : Z :=
  indexFrom 0 sa item.

(** How the program ends before it runs a command: the process exits with a
    status ([logger.Fatal], [os.Exit]), or the function is left as [res]
    tells. *)
Inductive run (A : Type) : Type :=
| Exits (code : Z)
| Goes (r : res A).
Arguments Exits {A} code.
Arguments Goes {A} r.

(** [a[lo:hi]] on a slice of strings: Go panics unless
    [0 <= lo <= hi <= len(a)]. *)
Definition sliceArgs (a : list gostring) (lo hi : Z) : res (list gostring) :=
  if (0 <=? lo) && (lo <=? hi) && (hi <=? Z.of_nat (length a)) then
    Ret (take (Z.to_nat (hi - lo)) (drop (Z.to_nat lo) a))
  else Panic (str "slice bounds out of range").

(** [for _, m := range matches { ... variables[varName] = []string{} }] *)
Definition declareVars (n : gostring)
    (variables : gmap gostring (list gostring))
  : gmap gostring (list gostring) :=
  foldl (λ variables m,
           let l := length m in
           let varName := slice m 2 (l - 1) in
           <[varName := []]> variables)
        variables (Regexp.FindAllString n).

(** [for k := range variables { if strings.HasPrefix(n, k + ":") { ... } }],
    the keys taken in the order [keys].  Go leaves the order of the keys of
    a map open. *)
Definition defineVars (fuel : nat) (n : gostring) (keys : list gostring)
    (variables : gmap gostring (list gostring))
  : res (gmap gostring (list gostring)) :=
  forRange keys
    (λ k variables,
       if Strings.HasPrefix n (k ++ [":"]) then
         let kvp := Strings.Split n ":" in
         let! v := ParseVarValues fuel (Strings.Join (drop 1 kvp) [":"]) in
         Ret (<[k := variables !!! k ++ v]> variables)
       else Ret variables)
    variables.

(** [for _, n := range os.Args[neutronArgsIndex+1:] { ... }] of
    [HandleArguments]. *)
Fixpoint argsLoop (fuel : nat) (args : list gostring) (varStart : bool)
    (variables : gmap gostring (list gostring))
  : res (gmap gostring (list gostring)) :=
  match args with
  | [] => Ret variables
  | n :: args' =>
      if bool_decide (n = str "++") then argsLoop fuel args' true variables
      else if negb varStart then
        argsLoop fuel args' varStart (declareVars n variables)
      else
        let! variables' :=
          defineVars fuel n (map_to_list variables).*1 variables in
        argsLoop fuel args' varStart variables'
  end.

(** [HandleArguments], from the return of [flag.Parse()] on: the flags set
    [concurrency] and [output], which nothing reads, and leave [os.Args] as
    it is.  The function reads [os.Args] and appends to the global
    [cmdList]. *)
Definition HandleArguments (fuel : nat) (os_Args : list gostring)
    (cmdList : list gostring) : run (list gostring) :=
  let neutronArgsIndex := IndexOf os_Args (str "--") in
  if neutronArgsIndex =? -1 then Exits 1
  else
    let variableArgsIndex := IndexOf os_Args (str "++") in
    let variableArgsIndex :=
      if variableArgsIndex =? -1 then Z.of_nat (length os_Args)
      else variableArgsIndex in
    Goes (let! templateArgs :=
            sliceArgs os_Args (neutronArgsIndex + 1) variableArgsIndex in
          let neutronCmdArgs := Strings.Join templateArgs [" "] in
          let variables : gmap gostring (list gostring) := ∅ in
          let! variables :=
            argsLoop fuel (drop (Z.to_nat (neutronArgsIndex + 1)) os_Args)
                     false variables in
          ConstructFromTemplate fuel neutronCmdArgs variables cmdList).

(** [strings.Contains(s, substr)]. *)
Fixpoint Contains (s substr : gostring) : bool :=
  Strings.HasPrefix s substr
  || match s with
     | [] => false
     | _ :: r => Contains r substr
     end.

(** [main].  [os_Environ] is [os.Environ()] and [lookPath] the outcome of
    [exec.LookPath("neutron")], the path found or the error.
    [logger.Fatal] and [os.Exit(1)] end the program with status 1.  The
    globals [cmdList] and [cmdResults] start empty.  What [main] prints at
    its end is the JSON document of [cmdResults]; the model returns these
    records. *)
Definition main {E : Env} (fuel : nat) (os_Args os_Environ : list gostring)
    (lookPath : gostring + gostring) : run (list CommandResult) * World :=
  match HandleArguments fuel os_Args [] with
  | Exits code => (Exits code, initWorld)
  | Goes (Panic msg) => (Goes (Panic msg), initWorld)
  | Goes Timeout => (Goes Timeout, initWorld)
  | Goes (Ret cmdList) =>
      if negb (Contains (Strings.Join os_Environ [","]) (str "OS_USERNAME="))
      then (Exits 1, initWorld)
      else
        match lookPath with
        | inr err => (Exits 1, initWorld)
        | inl neutron =>
            let '(r, w) := RunCmds fuel cmdList initWorld in
            (Goes (let! _ := r in Ret (cmdResults w)), w)
        end
  end.

(** ** Definitions used to state the properties *)

(** The number a string of digits denotes, after the digits [n]. *)
Definition decimalFrom (n : Z) (a : gostring) : Z :=
  fold_left (λ n c, n * 10 + (Z.of_nat (nat_of_ascii c) - 48)) a n.

Definition decimalValue (a : gostring) : Z := decimalFrom 0 a.

(** The two numbers of a token [a-b]. *)
Definition lowerBound (n : gostring) : Z :=
  decimalValue (fst (span isDigit n)).
Definition upperBound (n : gostring) : Z :=
  decimalValue (drop 1 (snd (span isDigit n))).

(** The values the specification gives to one token of a value list: a
    token [a-b] of two numbers stands for the numbers from [a] to [b] in
    ascending order, any other token for itself. *)
Definition tokenValues (n : gostring) : list gostring :=
  if rangePattern_MatchString n then
    Fmt.Sprintf_d <$> seqZ (lowerBound n) (upperBound n - lowerBound n + 1)
  else [n].

(** The number of percent signs of a string. *)
Definition countPercent (s : gostring) : nat :=
  length (filter (λ c, c = "%") s).

(** A value without a percent sign and without a dollar sign. *)
Definition plain (v : gostring) : Prop := ("%" ∉ v) ∧ ("$" ∉ v).

(** The values of every placeholder are plain. *)
Definition plainValues (variables : gmap gostring (list gostring)) : Prop :=
  ∀ name v, v ∈ variables !!! name → plain v.

(** An identifier: [[a-zA-Z_][a-zA-Z0-9_]*]. *)
Definition validName (x : gostring) : bool :=
  match x with
  | [] => false
  | c :: run => Regexp.isIdentStart c && forallb Regexp.isIdentChar run
  end.

(** A template as a sequence of characters other than the percent sign and
    of placeholders. *)
Inductive tok : Type :=
| Lit (c : ascii)
| Var (name : gostring).

Definition render1 (t : tok) : gostring :=
  match t with
  | Lit c => [c]
  | Var x => Regexp.placeholder x
  end.

Definition render (T : list tok) : gostring := T ≫= render1.

Definition wfTok (t : tok) : Prop :=
  match t with
  | Lit c => c ≠ "%"
  | Var x => validName x = true
  end.

(** The names of the placeholders of a template, in order. *)
Definition names (T : list tok) : list gostring :=
  omap (λ t, match t with Var x => Some x | Lit _ => None end) T.

(** A template with a value put for every placeholder of one name. *)
Definition substTok (x v : gostring) (t : tok) : list tok :=
  match t with
  | Lit _ => [t]
  | Var y => if decide (y = x) then Lit <$> v else [t]
  end.

Definition subst (x v : gostring) (T : list tok) : list tok :=
  T ≫= substTok x v.

(** Every percent sign of the template begins a placeholder. *)
Fixpoint percentsBeginPlaceholders (s : gostring) : bool :=
  match s with
  | [] => true
  | c :: r =>
      (if Ascii.eqb c "%" then bool_decide (is_Some (Regexp.matchVarAt s))
       else true)
      && percentsBeginPlaceholders r
  end.

(** The distinct names of the placeholders the scanner finds in a
    template. *)
Definition nameOf (m : gostring) : gostring := slice m 2 (length m - 1).

Definition usedNames (template : gostring) : list gostring :=
  remove_dups (nameOf <$> Regexp.FindAllString template).

Definition product (l : list nat) : nat := foldr Nat.mul 1%nat l.

(** The result with the list [acc] on the left of what is appended. *)
Definition onto (acc : list gostring) (r : res (list gostring))
  : res (list gostring) :=
  match r with
  | Ret o => Ret (acc ++ o)
  | Panic msg => Panic msg
  | Timeout => Timeout
  end.

(** What the Poller reads from one run of the check command: the exit
    code, the error text and the decoded status of the record the Command
    Runner returns. *)
Definition checkView {E : Env} (o : ProcOutcome)
  : Z * gostring * NeutronResponse :=
  match o with
  | StartFails e => (-1, e, decodeStatus nilMap)
  | WaitFails _ stderr e code => (code, stderr ++ e, decodeStatus nilMap)
  | WaitOk stdout stderr =>
      (0, stderr,
       decodeStatus (default (messageMap stdout) (json_Unmarshal stdout)))
  end.

(** The check command has succeeded and reports a pending status. *)
Definition pending {E : Env} (o : ProcOutcome) : bool :=
  let '(code, _, stat) := checkView o in
  (code =? 0) && Strings.HasPrefix (ProvisioningStatus stat) (str "PENDING_").

(** The text the Poller records when the check is not pending. *)
Definition checkedText {E : Env} (command : gostring) (o : ProcOutcome)
  : gostring :=
  let '(code, err, stat) := checkView o in
  if negb (code =? 0) then
    str "Failed to check execution of " ++ command ++ str ": " ++ err
  else ID stat ++ str ": " ++ ProvisioningStatus stat.

(** The value list of a definition argument as [HandleArguments] cuts it
    out: the parts after the first colon, joined by colons again. *)
Definition valueSpec (n : gostring) : gostring :=
  Strings.Join (drop 1 (Strings.Split n ":")) [":"].

(** The argument [n] defines values for the name [k]. *)
Definition defines (n k : gostring) : bool :=
  Strings.HasPrefix n (k ++ [":"]).

(** The values the specification gives to a value list: those of its
    tokens, in order. *)
Definition specValues (v : gostring) : list gostring :=
  concat (tokenValues <$> Strings.Split v ",").

(** The values the definition arguments [defs] give to the name [k], in
    the order of the arguments. *)
Definition definedValues (k : gostring) (defs : list gostring)
  : list gostring :=
  concat ((λ n, specValues (valueSpec n))
            <$> filter (λ n, defines n k = true) defs).



(** A record as [RunCommand] makes it: sequence number 0, nothing checked. *)
Definition fresh {E : Env} (cmd : gostring) (cr : CommandResult) : Prop :=
  Seq cr = 0 ∧ Command cr = cmd ∧ Checked cr = [] ∧ CheckedDuration cr = 0.

(** The command the Poller runs to check a resource. *)
Definition isCheckArgs (argv : list gostring) : Prop :=
  ∃ resourceType id,
    argv = cmdArgsOf (str "neutron lbaas-" ++ resourceType ++ str "-show " ++ id).

(** A string is not among the strings of a list. *)
Ltac not_in_list :=
  let H := fresh in
  intros H%list_elem_of_In; vm_compute in H; intuition discriminate.

(** ** Properties of the library models *)

Section StringLemmas.

Lemma span_app (p : ascii → bool) (s : gostring) :
  fst (span p s) ++ snd (span p s) = s.
Proof.
  induction s as [|c r IH]; simpl; [done|].
  destruct (p c); [|done].
  destruct (span p r) as [a b]; simpl in *. by rewrite IH.
Qed.

Lemma span_forallb (p : ascii → bool) (s : gostring) :
  forallb p (fst (span p s)) = true.
Proof.
  induction s as [|c r IH]; simpl; [done|].
  destruct (p c) eqn:Hc; [|done].
  destruct (span p r) as [a b]; simpl in *. by rewrite Hc.
Qed.

Lemma span_all (p : ascii → bool) (a rest : gostring) :
  forallb p a = true →
  match rest with [] => True | c :: _ => p c = false end →
  span p (a ++ rest) = (a, rest).
Proof.
  intros Ha Hrest. induction a as [|c a IH]; simpl in *.
  - destruct rest as [|c r]; simpl; [done|]. by rewrite Hrest.
  - apply andb_prop in Ha as [Hc Ha]. rewrite Hc, IH; done.
Qed.

Lemma Split_no_sep (s : gostring) (sep : ascii) :
  sep ∉ s → Strings.Split s sep = [s].
Proof.
  induction s as [|c r IH]; intros Hs; simpl; [done|].
  apply not_elem_of_cons in Hs as [Hne Hr].
  destruct (Ascii.eqb_spec c sep) as [->|_]; [done|].
  by rewrite IH.
Qed.

Lemma Split_app_sep (a b : gostring) (sep : ascii) :
  sep ∉ a → Strings.Split (a ++ sep :: b) sep = a :: Strings.Split b sep.
Proof.
  induction a as [|c r IH]; intros Ha; simpl.
  - by rewrite Ascii.eqb_refl.
  - apply not_elem_of_cons in Ha as [Hne Hr].
    destruct (Ascii.eqb_spec c sep) as [->|_]; [done|].
    by rewrite IH.
Qed.

Lemma Split_Join (elems : list gostring) (sep : ascii) :
  elems ≠ [] → Forall (λ e, sep ∉ e) elems →
  Strings.Split (Strings.Join elems [sep]) sep = elems.
Proof.
  induction elems as [|e es IH]; intros Hne Hall; [done|].
  apply Forall_cons in Hall as [He Hes].
  destruct es as [|e' es'].
  - simpl. by apply Split_no_sep.
  - change (Strings.Join (e :: e' :: es') [sep])
      with (e ++ sep :: Strings.Join (e' :: es') [sep]).
    rewrite Split_app_sep by done. by rewrite IH.
Qed.

Lemma forallb_isDigit_no (c : ascii) (a : gostring) :
  isDigit c = false → forallb isDigit a = true → c ∉ a.
Proof.
  intros Hc Ha Hin. rewrite forallb_forall in Ha.
  apply list_elem_of_In in Hin. specialize (Ha _ Hin). congruence.
Qed.

End StringLemmas.

(** ** Properties of [strconv.Atoi] on strings of digits *)

Section AtoiLemmas.

Import Strconv.

Lemma digitVal_digit (c : ascii) :
  isDigit c = true →
  ∃ d, digitVal c = Some d ∧ d = Z.of_nat (nat_of_ascii c) - 48 ∧ 0 ≤ d ≤ 9.
Proof.
  intros Hc. unfold digitVal. rewrite Hc.
  exists (Z.of_nat (nat_of_ascii c) - 48). split; [done|split; [done|]].
  unfold isDigit in Hc. apply andb_prop in Hc as [H1 H2].
  apply Nat.leb_le in H1. apply Nat.leb_le in H2.
  lia.
Qed.

Lemma decimalFrom_mono (a : gostring) (n : Z) :
  forallb isDigit a = true → 0 ≤ n → n ≤ decimalFrom n a.
Proof.
  revert n. induction a as [|c a IH]; intros n Ha Hn; simpl in *; [lia|].
  apply andb_prop in Ha as [Hc Ha].
  destruct (digitVal_digit c Hc) as (d & _ & Hd & Hr).
  etrans; [|apply IH]; [lia|done|lia].
Qed.

Lemma parseUint_digits (a : gostring) (n : Z) :
  forallb isDigit a = true → 0 ≤ n < 2 ^ 64 →
  parseUint a n =
    if decide (decimalFrom n a < 2 ^ 64) then (decimalFrom n a, None)
    else (2 ^ 64 - 1, Some ErrRange).
Proof.
  revert n. induction a as [|c a IH]; intros n Ha Hn; simpl in *.
  - case_decide; [done|lia].
  - apply andb_prop in Ha as [Hc Ha].
    destruct (digitVal_digit c Hc) as (d & -> & Hd & Hr).
    rewrite <- Hd.
    destruct (Z.leb_spec (2 ^ 64) (n * 10 + d)) as [Hov|Hok].
    + pose proof (decimalFrom_mono a (n * 10 + d) Ha ltac:(lia)) as Hm.
      case_decide; [lia|done].
    + apply IH; [done|lia].
Qed.

Lemma decimalValue_nonneg (a : gostring) :
  forallb isDigit a = true → 0 ≤ decimalValue a.
Proof. intros Ha. by apply (decimalFrom_mono a 0). Qed.

(** On a non-empty string of digits [Atoi] fails only by overflow, and
    then returns the largest int. *)
Lemma Atoi_digits (a : gostring) :
  a ≠ [] → forallb isDigit a = true →
  Atoi a = if decide (decimalValue a ≤ maxInt) then (decimalValue a, None)
           else (maxInt, Some ErrRange).
Proof.
  intros Hne Ha. destruct a as [|c a]; [done|].
  pose proof (decimalValue_nonneg _ Ha) as Hnn.
  pose proof (parseUint_digits (c :: a) 0 Ha ltac:(lia)) as Hp.
  change (decimalFrom 0 (c :: a)) with (decimalValue (c :: a)) in Hp.
  assert (c ≠ "-" ∧ c ≠ "+") as [Hm Hpl].
  { simpl in Ha. apply andb_prop in Ha as [Hc _].
    split; intros ->; discriminate Hc. }
  unfold Atoi.
  assert (match c :: a with
          | "-" :: r => (true, r)
          | "+" :: r => (false, r)
          | _ => (false, c :: a)
          end = (false, c :: a)) as ->.
  { destruct c as [[] [] [] [] [] [] [] []]; try done. }
  rewrite Hp. unfold maxInt in *.
  destruct (decide (decimalValue (c :: a) < 2 ^ 64)) as [Hlt|Hge]; simpl.
  - destruct (Z.leb_spec (2 ^ 63) (decimalValue (c :: a))); case_decide; try lia; done.
  - case_decide; [lia|done].
Qed.

Lemma Atoi_digits_ok (a : gostring) :
  a ≠ [] → forallb isDigit a = true →
  snd (Atoi a) = None ↔ decimalValue a ≤ maxInt.
Proof.
  intros Hne Ha. rewrite Atoi_digits by done.
  case_decide; cbn [snd]; split; intros; done.
Qed.

End AtoiLemmas.

(** ** Properties of the Value-List Parser *)

Section ParserLemmas.

Import Strconv.

Lemma wrapInt_small (z : Z) : minInt ≤ z ≤ maxInt → wrapInt z = z.
Proof.
  unfold wrapInt, minInt, maxInt. intros Hz.
  rewrite Z.mod_small; lia.
Qed.

Lemma wrapInt_range (z : Z) : minInt ≤ wrapInt z ≤ maxInt.
Proof.
  unfold wrapInt, minInt, maxInt.
  pose proof (Z.mod_pos_bound (z + 2 ^ 63) (2 ^ 64) ltac:(lia)). lia.
Qed.

(** A token matches the range pattern exactly when it is two non-empty
    strings of digits around a hyphen. *)
Lemma rangePattern_shape (n : gostring) :
  rangePattern_MatchString n = true →
  ∃ a b, n = a ++ "-" :: b ∧ span isDigit n = (a, "-" :: b)
         ∧ a ≠ [] ∧ b ≠ []
         ∧ forallb isDigit a = true ∧ forallb isDigit b = true.
Proof.
  unfold rangePattern_MatchString. intros Hm.
  pose proof (span_app isDigit n) as Happ.
  pose proof (span_forallb isDigit n) as Hdig.
  destruct (span isDigit n) as [a r]; simpl in *.
  destruct a as [|c a]; [done|].
  destruct r as [|h b]; [done|].
  destruct (Ascii.eqb_spec h "-") as [->|Hne].
  - destruct b as [|c' b]; [done|].
    exists (c :: a), (c' :: b). by rewrite Happ.
  - destruct h as [[] [] [] [] [] [] [] []]; done.
Qed.

Lemma rangePattern_digits (a b : gostring) :
  a ≠ [] → b ≠ [] → forallb isDigit a = true → forallb isDigit b = true →
  span isDigit (a ++ "-" :: b) = (a, "-" :: b)
  ∧ rangePattern_MatchString (a ++ "-" :: b) = true.
Proof.
  intros Ha Hb Hda Hdb.
  assert (span isDigit (a ++ "-" :: b) = (a, "-" :: b)) as Hs
    by (by apply span_all).
  split; [done|]. unfold rangePattern_MatchString. rewrite Hs.
  destruct a; [done|]. by destruct b.
Qed.

Lemma Split_range (a b : gostring) :
  forallb isDigit a = true → forallb isDigit b = true →
  Strings.Split (a ++ "-" :: b) "-" = [a; b].
Proof.
  intros Ha Hb.
  rewrite Split_app_sep by (by apply forallb_isDigit_no).
  rewrite Split_no_sep by (by apply forallb_isDigit_no). done.
Qed.

(** The range loop, when the upper bound is below the largest int: the
    numbers from [i] to [e], in ascending order, are appended. *)
Lemma rangeLoop_ascending (fuel : nat) (i e : Z) (rlt : list gostring) :
  minInt ≤ i → e < maxInt → (Z.to_nat (e - i + 1) < fuel)%nat →
  rangeLoop fuel i e rlt = Ret (rlt ++ (Fmt.Sprintf_d <$> seqZ i (e - i + 1))).
Proof.
  revert i rlt. induction fuel as [|fuel IH]; intros i rlt Hi He Hf; [lia|].
  simpl. destruct (Z.leb_spec i e) as [Hle|Hgt].
  - rewrite wrapInt_small by lia. rewrite IH by lia.
    rewrite (seqZ_cons i) by lia. rewrite <- app_assoc. simpl.
    repeat f_equal; lia.
  - rewrite seqZ_nil by lia. by rewrite app_nil_r.
Qed.

(** The range loop does not end when the upper bound is the largest int:
    [i <= e] holds for every int [i], and [i++] wraps around. *)
Lemma rangeLoop_diverges (fuel : nat) (i : Z) (rlt : list gostring) :
  i ≤ maxInt → rangeLoop fuel i maxInt rlt = Timeout.
Proof.
  revert i rlt. induction fuel as [|fuel IH]; intros i rlt Hi; [done|].
  simpl. destruct (Z.leb_spec i maxInt) as [_|Hgt]; [|lia].
  apply IH. apply wrapInt_range.
Qed.

(** One step of [parseTokens] on a token of the range shape. *)
Lemma parseTokens_range (fuel : nat) (a b : gostring) (ls rlt : list gostring) :
  a ≠ [] → b ≠ [] → forallb isDigit a = true → forallb isDigit b = true →
  parseTokens fuel ((a ++ "-" :: b) :: ls) rlt =
    let! rlt' := rangeLoop fuel (fst (Atoi a)) (fst (Atoi b)) rlt in
    parseTokens fuel ls rlt'.
Proof.
  intros Ha Hb Hda Hdb.
  destruct (rangePattern_digits a b) as [_ Hm]; [done..|].
  simpl. rewrite Hm, Split_range by done. done.
Qed.

Lemma parseTokens_values (ls : list gostring) :
  Forall (λ n, rangePattern_MatchString n = true → upperBound n < maxInt) ls →
  ∃ fuel0, ∀ fuel rlt, (fuel0 ≤ fuel)%nat →
    parseTokens fuel ls rlt = Ret (rlt ++ concat (tokenValues <$> ls)).
Proof.
  induction ls as [|n ls IH]; intros Hall.
  - exists 0%nat. intros fuel rlt _. simpl. by rewrite app_nil_r.
  - apply Forall_cons in Hall as [Hn Hls].
    destruct (IH Hls) as [fuel1 Hfuel1].
    destruct (rangePattern_MatchString n) eqn:Hm.
    + destruct (rangePattern_shape n Hm) as (a & b & -> & Hs & Ha & Hb & Hda & Hdb).
      specialize (Hn eq_refl).
      assert (upperBound (a ++ "-" :: b) = decimalValue b) as Hub
        by (unfold upperBound; by rewrite Hs).
      assert (lowerBound (a ++ "-" :: b) = decimalValue a) as Hlb
        by (unfold lowerBound; by rewrite Hs).
      rewrite Hub in Hn.
      pose proof (decimalValue_nonneg a Hda) as Hna.
      pose proof (decimalValue_nonneg b Hdb) as Hnb.
      exists (fuel1 `max` S (Z.to_nat (decimalValue b + 1)))%nat.
      intros fuel rlt Hfuel.
      rewrite parseTokens_range by done.
      rewrite (Atoi_digits a), (Atoi_digits b) by done.
      rewrite (decide_True (P := decimalValue b ≤ maxInt)) by lia.
      simpl fst. rewrite fmap_cons, concat_cons.
      unfold tokenValues at 1. rewrite Hm, Hub, Hlb.
      destruct (decide (decimalValue a ≤ maxInt)) as [Hok|Hov]; simpl fst.
      * rewrite rangeLoop_ascending by (unfold minInt; lia).
        simpl. rewrite Hfuel1 by lia. by rewrite app_assoc.
      * destruct fuel as [|fuel]; [lia|]. simpl rangeLoop.
        destruct (Z.leb_spec maxInt (decimalValue b)); [lia|].
        simpl. rewrite Hfuel1 by lia.
        rewrite seqZ_nil by lia. done.
    + exists fuel1. intros fuel rlt Hfuel. simpl. rewrite Hm.
      rewrite Hfuel1 by done. unfold tokenValues at 2. rewrite Hm.
      by rewrite <- app_assoc.
Qed.

Lemma rangeLoop_mono (fuel fuel' : nat) (i e : Z) (rlt out : list gostring) :
  (fuel ≤ fuel')%nat →
  rangeLoop fuel i e rlt = Ret out → rangeLoop fuel' i e rlt = Ret out.
Proof.
  revert fuel' i rlt. induction fuel as [|fuel IH]; intros fuel' i rlt Hle; [done|].
  destruct fuel' as [|fuel']; [lia|]. simpl.
  destruct (i <=? e); [|done]. apply IH. lia.
Qed.

(** More fuel does not change a result of the parser. *)
Lemma parseTokens_mono (fuel fuel' : nat) (ls rlt out : list gostring) :
  (fuel ≤ fuel')%nat →
  parseTokens fuel ls rlt = Ret out → parseTokens fuel' ls rlt = Ret out.
Proof.
  intros Hle. revert rlt. induction ls as [|n ls IH]; intros rlt; [done|].
  simpl. destruct (rangePattern_MatchString n); [|apply IH].
  destruct (index (Strings.Split n "-") 0) as [se0| |]; [|done..].
  destruct (index (Strings.Split n "-") 1) as [se1| |]; [|done..].
  simpl.
  destruct (rangeLoop fuel _ _ rlt) as [rlt'| |] eqn:Hloop; [|done..].
  rewrite (rangeLoop_mono fuel fuel' _ _ _ _ Hle Hloop). simpl. apply IH.
Qed.

(** The parser returns only when every range stays below the largest
    int. *)
Lemma parseTokens_Ret_bounded (fuel : nat) (ls rlt out : list gostring) :
  parseTokens fuel ls rlt = Ret out →
  Forall (λ n, rangePattern_MatchString n = true → upperBound n < maxInt) ls.
Proof.
  revert rlt. induction ls as [|n ls IH]; intros rlt Hret; [constructor|].
  destruct (rangePattern_MatchString n) eqn:Hm.
  - destruct (rangePattern_shape n Hm) as (a & b & -> & Hs & Ha & Hb & Hda & Hdb).
    rewrite parseTokens_range in Hret by done.
    destruct (rangeLoop fuel _ _ rlt) as [rlt'| |] eqn:Hloop; [|done..].
    simpl in Hret. constructor; [|by eapply IH].
    intros _. unfold upperBound. rewrite Hs. simpl.
    destruct (decide (decimalValue b < maxInt)) as [|Hge]; [done|].
    exfalso. rewrite (Atoi_digits b) in Hloop by done.
    assert (fst (if decide (decimalValue b ≤ maxInt)
                 then (decimalValue b, None)
                 else (maxInt, Some ErrRange)) = maxInt) as Heq
      by (case_decide; simpl; lia).
    rewrite Heq, rangeLoop_diverges in Hloop; [done|].
    rewrite (Atoi_digits a) by done.
    destruct (decide (decimalValue a ≤ maxInt)); simpl; lia.
  - constructor; [by rewrite Hm|].
    simpl in Hret. rewrite Hm in Hret. by eapply IH.
Qed.

End ParserLemmas.

Section ParserClaims.

Import Strconv.

Lemma Split_range_token (a b : gostring) :
  forallb isDigit a = true → forallb isDigit b = true →
  Strings.Split (a ++ "-" :: b) "," = [a ++ "-" :: b].
Proof.
  intros Ha Hb. apply Split_no_sep.
  rewrite elem_of_app, elem_of_cons.
  intros [H|[H|H]]; [|done|]; revert H; by apply forallb_isDigit_no.
Qed.

(** X15.  The Value-List Parser maps ["1-3,x,5-5"] to
    [["1","2","3","x","5"]] and ["a,b,c"] to [["a","b","c"]].  In
    general, for tokens joined by commas, a result of the parser is the
    concatenation, in the order of the tokens, of the values of each
    token: the numbers of a range in ascending order, a token that is
    not a range as it is.  The parser returns this result, for every
    fuel above a bound, when the upper bound of every range is below the
    largest int. *)
Theorem value_list_in_order :
  ParseVarValues 4 (str "1-3,x,5-5")
    = Ret [str "1"; str "2"; str "3"; str "x"; str "5"]
  ∧ ParseVarValues 1 (str "a,b,c") = Ret [str "a"; str "b"; str "c"]
  ∧ ∀ tokens : list gostring,
      tokens ≠ [] →
      Forall (λ n, "," ∉ n) tokens →
      (∀ fuel out,
         ParseVarValues fuel (Strings.Join tokens [","]) = Ret out →
         out = concat (tokenValues <$> tokens))
      ∧ (Forall (λ n, rangePattern_MatchString n = true
                      → upperBound n < maxInt) tokens →
         ∃ fuel0, ∀ fuel, (fuel0 ≤ fuel)%nat →
           ParseVarValues fuel (Strings.Join tokens [","])
             = Ret (concat (tokenValues <$> tokens))).
Proof.
  split; [by vm_compute|]. split; [by vm_compute|].
  intros tokens Hne Hcomma. unfold ParseVarValues.
  rewrite Split_Join by done. split.
  - intros fuel out Hret.
    pose proof (parseTokens_Ret_bounded _ _ _ _ Hret) as Hbound.
    destruct (parseTokens_values tokens Hbound) as [fuel0 Hfuel0].
    pose proof (parseTokens_mono fuel (fuel `max` fuel0) _ _ _
                  ltac:(lia) Hret) as Hret'.
    rewrite Hfuel0 in Hret' by lia. by injection Hret' as <-.
  - intros Hbound.
    destruct (parseTokens_values tokens Hbound) as [fuel0 Hfuel0].
    exists fuel0. intros fuel Hfuel. by rewrite Hfuel0.
Qed.

Lemma value_list_in_order_witness :
  let tokens := [str "1-3"; str "x"; str "5-5"] in
  tokens ≠ []
  ∧ Forall (λ n, "," ∉ n) tokens
  ∧ Forall (λ n, rangePattern_MatchString n = true → upperBound n < maxInt)
           tokens
  ∧ (∀ fuel out,
       ParseVarValues fuel (Strings.Join tokens [","]) = Ret out →
       out = concat (tokenValues <$> tokens))
  ∧ ∃ fuel0, ∀ fuel, (fuel0 ≤ fuel)%nat →
      ParseVarValues fuel (Strings.Join tokens [","])
        = Ret (concat (tokenValues <$> tokens)).
Proof.
  intros tokens.
  assert (tokens ≠ []) as H1 by done.
  assert (Forall (λ n, "," ∉ n) tokens) as H2.
  { repeat constructor; intros H; apply list_elem_of_In in H;
    simpl in H; intuition discriminate. }
  assert (Forall (λ n, rangePattern_MatchString n = true
                       → upperBound n < maxInt) tokens) as H3.
  { repeat constructor; intros _; reflexivity. }
  split; [exact H1|]. split; [exact H2|]. split; [exact H3|].
  destruct value_list_in_order as (_ & _ & H).
  destruct (H tokens H1 H2) as [Hpartial Htotal].
  split; [exact Hpartial|exact (Htotal H3)].
Defined.

(** C5 (as the code has it).  In a token of the range shape a part fails
    integer parsing exactly when its number exceeds the largest int.  The
    parser reports no error then: [strconv.Atoi]'s error is dropped and
    the part counts as the largest int, 9223372036854775807, not as
    zero.  So a token whose first part overflows and whose second part is
    below the largest int gives no value, as an inverted range does. *)
Theorem range_overflow_not_reported (a b : gostring) :
  a ≠ [] → b ≠ [] →
  forallb isDigit a = true → forallb isDigit b = true →
  rangePattern_MatchString (a ++ "-" :: b) = true
  ∧ (snd (Atoi a) = None ↔ decimalValue a ≤ maxInt)
  ∧ (snd (Atoi b) = None ↔ decimalValue b ≤ maxInt)
  ∧ (maxInt < decimalValue a → fst (Atoi a) = maxInt)
  ∧ (maxInt < decimalValue b → fst (Atoi b) = maxInt)
  ∧ (maxInt < decimalValue a → decimalValue b < maxInt →
     ∀ fuel, (0 < fuel)%nat → ParseVarValues fuel (a ++ "-" :: b) = Ret []).
Proof.
  intros Ha Hb Hda Hdb.
  pose proof (Atoi_digits a Ha Hda) as HAa.
  pose proof (Atoi_digits b Hb Hdb) as HAb.
  pose proof (decimalValue_nonneg a Hda) as Hna.
  split; [by apply rangePattern_digits|].
  split; [by apply Atoi_digits_ok|]. split; [by apply Atoi_digits_ok|].
  split; [intros Hov; rewrite HAa; by rewrite decide_False by lia|].
  split; [intros Hov; rewrite HAb; by rewrite decide_False by lia|].
  intros Hova Hokb fuel Hfuel. unfold ParseVarValues.
  rewrite Split_range_token, parseTokens_range by done.
  rewrite HAa, HAb.
  rewrite (decide_False (P := decimalValue a ≤ maxInt)) by lia.
  rewrite (decide_True (P := decimalValue b ≤ maxInt)) by lia.
  destruct fuel as [|fuel]; [lia|]. simpl.
  destruct (Z.leb_spec maxInt (decimalValue b)); [lia|done].
Qed.

(** A range whose upper bound is the largest int or more: the loop over
    it does not end. *)
Lemma range_reaching_maxInt_diverges (a b : gostring) (fuel : nat) :
  a ≠ [] → b ≠ [] →
  forallb isDigit a = true → forallb isDigit b = true →
  maxInt ≤ decimalValue b →
  ParseVarValues fuel (a ++ "-" :: b) = Timeout.
Proof.
  intros Ha Hb Hda Hdb Hovb. unfold ParseVarValues.
  pose proof (decimalValue_nonneg a Hda) as Hna.
  rewrite Split_range_token, parseTokens_range by done.
  rewrite (Atoi_digits b), (Atoi_digits a) by done.
  assert (fst (if decide (decimalValue b ≤ maxInt)
               then (decimalValue b, None)
               else (maxInt, Some ErrRange)) = maxInt) as ->
    by (case_decide; simpl; lia).
  rewrite rangeLoop_diverges; [done|].
  destruct (decide (decimalValue a ≤ maxInt)); simpl; lia.
Qed.

(** C7, on the code.  The token [9223372036854775807-9223372036854775807]
    is an ascending range of one number: it has the shape of a range,
    both parts are parsed without an error, and the values the
    specification gives to it are the one string [9223372036854775807].
    The parser does not return them: the loop
    [for i := s; i <= e; i++] cannot leave a bound that is the largest
    int, as [i++] wraps around, so the parser does not return at all, on
    this token alone or in a list.  The two examples of the specification
    are parsed as it says. *)
Theorem range_up_to_largest_int_never_returns :
  let n := str "9223372036854775807" in
  let v := n ++ "-" :: n in
  rangePattern_MatchString v = true
  ∧ Atoi n = (maxInt, None)
  ∧ lowerBound v = maxInt ∧ upperBound v = maxInt
  ∧ tokenValues v = [n]
  ∧ (∀ fuel, ParseVarValues fuel v = Timeout)
  ∧ (∀ fuel, ParseVarValues fuel (str "a," ++ v ++ str ",b") = Timeout)
  ∧ ParseVarValues 4 (str "1-3,x,5-5")
    = Ret [str "1"; str "2"; str "3"; str "x"; str "5"]
  ∧ ParseVarValues 1 (str "a,b,c") = Ret [str "a"; str "b"; str "c"].
Proof.
  intros n v.
  assert (n ≠ []) as Hn by done.
  assert (forallb isDigit n = true) as Hd by reflexivity.
  assert (decimalValue n = maxInt) as Hv by reflexivity.
  assert (Atoi n = (maxInt, None)) as Hatoi by reflexivity.
  split_and!.
  - by apply rangePattern_digits.
  - exact Hatoi.
  - unfold lowerBound, v.
    by rewrite (proj1 (rangePattern_digits n n Hn Hn Hd Hd)).
  - unfold upperBound, v.
    by rewrite (proj1 (rangePattern_digits n n Hn Hn Hd Hd)).
  - reflexivity.
  - intros fuel. apply range_reaching_maxInt_diverges; try done; by rewrite Hv.
  - intros fuel. unfold ParseVarValues.
    assert (Strings.Split (str "a," ++ v ++ str ",b") ","
            = [str "a"; n ++ "-" :: n; str "b"]) as -> by reflexivity.
    assert (parseTokens fuel [str "a"; n ++ "-" :: n; str "b"] []
            = parseTokens fuel [n ++ "-" :: n; str "b"] [str "a"]) as ->.
    { by destruct fuel. }
    rewrite parseTokens_range by done. rewrite Hatoi. cbn [fst].
    by rewrite rangeLoop_diverges.
  - reflexivity.
  - reflexivity.
Qed.

Lemma range_overflow_not_reported_witness :
  let a := str "99999999999999999999" in
  let b := str "5" in
  rangePattern_MatchString (a ++ "-" :: b) = true
  ∧ (snd (Atoi a) = None ↔ decimalValue a ≤ maxInt)
  ∧ (snd (Atoi b) = None ↔ decimalValue b ≤ maxInt)
  ∧ (maxInt < decimalValue a → fst (Atoi a) = maxInt)
  ∧ (maxInt < decimalValue b → fst (Atoi b) = maxInt)
  ∧ (maxInt < decimalValue a → decimalValue b < maxInt →
     ∀ fuel, (0 < fuel)%nat → ParseVarValues fuel (a ++ "-" :: b) = Ret []).
Proof.
  intros a b.
  apply (range_overflow_not_reported a b); [done|done|reflexivity|reflexivity].
Defined.

(** C5, counterexample.  The token ["99999999999999999999-5"] has the
    range shape and its first part fails integer parsing, yet the parser
    returns a list, the empty one, as it does for ["7-5"]: no error
    reaches the caller. *)
Lemma range_overflow_counterexample :
  rangePattern_MatchString (str "99999999999999999999-5") = true
  ∧ Atoi (str "99999999999999999999") = (maxInt, Some ErrRange)
  ∧ ParseVarValues 1 (str "99999999999999999999-5") = Ret []
  ∧ ParseVarValues 1 (str "7-5") = Ret [].
Proof. by vm_compute. Qed.

End ParserClaims.

(** ** Properties of the Command Runner, the Poller and the Orchestrator *)

Section PipelineLemmas.

Context {E : Env}.

(** [RunCommand] always returns; it reads the clock twice and spawns one
    process. *)
Lemma RunCommand_spec (cmd : gostring) (w : World) :
  ∃ cr, RunCommand cmd w =
          (Ret cr, {| cmdResults := cmdResults w;
                      spawned := spawned w ++ [cmdArgsOf cmd];
                      clockReads := S (S (clockReads w)) |})
        ∧ fresh cmd cr
        ∧ Duration cr = Time_Sub (clock (S (clockReads w))) (clock (clockReads w))
        ∧ match process (length (spawned w)) (cmdArgsOf cmd) with
          | StartFails e => Err cr = e ∧ ExitCode cr = -1 ∧ Out cr = nilMap
          | WaitFails _ stderr e code =>
              Err cr = stderr ++ e ∧ ExitCode cr = code ∧ Out cr = nilMap
          | WaitOk stdout stderr =>
              Err cr = stderr ∧ ExitCode cr = 0
              ∧ Out cr = default (messageMap stdout) (json_Unmarshal stdout)
          end.
Proof.
  unfold RunCommand, bind, time_Now, exec_Run, ret. simpl.
  destruct (process (length (spawned w)) (cmdArgsOf cmd)) as [e|o e' e c|o e];
    simpl; (eexists; split; [reflexivity|]); repeat split; try done.
Qed.

Lemma bind_Ret {A B : Type} (m : M A) (f : A → M B) (w w' : World) (a : A) :
  m w = (Ret a, w') → bind m f w = f a w'.
Proof. unfold bind. by intros ->. Qed.

Lemma bind_not_Ret {A B : Type} (m : M A) (f : A → M B) (w : World) :
  (∀ a, fst (m w) ≠ Ret a) →
  snd (bind m f w) = snd (m w) ∧ ∀ b, fst (bind m f w) ≠ Ret b.
Proof.
  unfold bind. destruct (m w) as [[a|msg|] w']; simpl; intros H; [|done..].
  by destruct (H a).
Qed.

Lemma pollLoop_S (fuel : nat) (checkCmd : gostring) (rlt : CommandResult) :
  pollLoop (S fuel) checkCmd rlt =
    let* cr := RunCommand checkCmd in
    if negb (ExitCode cr =? 0) then
      ret (set_Checked (str "Failed to check execution of "
                          ++ Command rlt ++ str ": " ++ Err cr) rlt)
    else
      let stat := decodeStatus (Out cr) in
      if Strings.HasPrefix (ProvisioningStatus stat) (str "PENDING_") then
        pollLoop fuel checkCmd rlt
      else
        ret (set_Checked (ID stat ++ str ": " ++ ProvisioningStatus stat) rlt).
Proof. reflexivity. Qed.

(** What a run of the polling loop leaves: the results untouched, the
    check command spawned some number of times, and, when the loop is
    left, the record with its field [Checked] assigned. *)
Lemma pollLoop_spec (fuel : nat) (checkCmd : gostring) (rlt : CommandResult)
    (w : World) :
  ∃ k,
    cmdResults (snd (pollLoop fuel checkCmd rlt w)) = cmdResults w
    ∧ spawned (snd (pollLoop fuel checkCmd rlt w))
      = spawned w ++ replicate k (cmdArgsOf checkCmd)
    ∧ (fuel ≠ 0%nat → k ≠ 0%nat)
    ∧ ∀ rlt', fst (pollLoop fuel checkCmd rlt w) = Ret rlt' →
              ∃ text, rlt' = set_Checked text rlt.
Proof.
  revert w. induction fuel as [|fuel IH]; intros w.
  - exists 0%nat. simpl. rewrite app_nil_r. split_and!; done.
  - destruct (RunCommand_spec checkCmd w) as (cr & Hrun & _).
    rewrite pollLoop_S, (bind_Ret _ _ _ _ _ Hrun).
    destruct (negb (ExitCode cr =? 0)).
    + exists 1%nat. simpl. split_and!; try done.
      intros rlt' [= <-]. eauto.
    + cbv zeta. destruct (Strings.HasPrefix _ _).
      * destruct (IH {| cmdResults := cmdResults w;
                        spawned := spawned w ++ [cmdArgsOf checkCmd];
                        clockReads := S (S (clockReads w)) |})
          as (k & Hres & Hsp & _ & Hret).
        exists (S k). rewrite Hres, Hsp. simpl.
        rewrite <- app_assoc. split_and!; done.
      * exists 1%nat. simpl. split_and!; try done.
        intros rlt' [= <-]. eauto.
Qed.

(** The Poller on a command that is neither a create nor an update: no
    process is spawned, the clock is read twice. *)
Lemma CheckExecution_no_poll (fuel : nat) (rlt : CommandResult) (w : World)
    (args1 resourceType operation : gostring) :
  operationKind (Command rlt) = Ret (args1, resourceType, operation) →
  operation ≠ str "create" → operation ≠ str "update" →
  CheckExecution fuel rlt w =
    (Ret (set_CheckedDuration
            (wrapInt (Time_Sub (clock (S (clockReads w))) (clock (clockReads w))
                      + Duration rlt))
            (set_Checked (args1 ++ str " done") rlt)),
     {| cmdResults := cmdResults w; spawned := spawned w;
        clockReads := S (S (clockReads w)) |}).
Proof.
  intros Hk Hc Hu. unfold CheckExecution, bind, lift. rewrite Hk.
  unfold time_Now at 1.
  rewrite (bool_decide_eq_false_2 _ Hc), (bool_decide_eq_false_2 _ Hu).
  reflexivity.
Qed.

(** The Poller never touches the global results, and spawns check
    commands only. *)
Lemma CheckExecution_spec (fuel : nat) (rlt : CommandResult) (w : World) :
  ∃ checks,
    cmdResults (snd (CheckExecution fuel rlt w)) = cmdResults w
    ∧ spawned (snd (CheckExecution fuel rlt w)) = spawned w ++ checks
    ∧ Forall isCheckArgs checks.
Proof.
  unfold CheckExecution, bind, lift, time_Now.
  destruct (operationKind (Command rlt)) as [[[args1 rt] op]|msg|];
    cbv beta iota; [|exists []; simpl; by rewrite app_nil_r..].
  destruct (bool_decide (op = str "create") || bool_decide (op = str "update")).
  - set (w1 := {| cmdResults := cmdResults w; spawned := spawned w;
                  clockReads := S (clockReads w) |}).
    set (checkCmd := str "neutron lbaas-" ++ rt ++ str "-show " ++ sprint_id (Out rlt)).
    destruct (pollLoop_spec fuel checkCmd rlt w1) as (k & Hres & Hsp & _ & _).
    exists (replicate k (cmdArgsOf checkCmd)).
    destruct (pollLoop fuel checkCmd rlt w1) as [[r|msg|] w2];
      (split_and!; [exact Hres|exact Hsp|]);
      apply Forall_replicate; by exists rt, (sprint_id (Out rlt)).
  - exists []. simpl. by rewrite app_nil_r.
Qed.

(** The records and the processes a run of the Orchestrator adds, however
    the run ends: the records are as the Command Runner made them, one for
    each command reached, in order; a process is a command with the
    prefix or a check of the Poller. *)
Lemma RunCmds_spec (fuel : nat) (cmdList : list gostring) (w : World) :
  ∃ results procs,
    cmdResults (snd (RunCmds fuel cmdList w)) = cmdResults w ++ results
    ∧ spawned (snd (RunCmds fuel cmdList w)) = spawned w ++ procs
    ∧ Forall2 (λ cr n, fresh (cmdPrefix ++ n) cr) results
              (take (length results) cmdList)
    ∧ (fst (RunCmds fuel cmdList w) = Ret tt → length results = length cmdList)
    ∧ Forall (λ argv, (∃ n, n ∈ cmdList ∧ argv = cmdArgsOf (cmdPrefix ++ n))
                      ∨ isCheckArgs argv) procs.
Proof.
  revert w. induction cmdList as [|n cmdList IH]; intros w.
  - exists [], []. simpl. rewrite !app_nil_r. split_and!; by constructor.
  - destruct (RunCommand_spec (cmdPrefix ++ n) w) as (cr & Hrun & Hfresh & _).
    set (w1 := {| cmdResults := cmdResults w;
                  spawned := spawned w ++ [cmdArgsOf (cmdPrefix ++ n)];
                  clockReads := S (S (clockReads w)) |}) in Hrun.
    set (w2 := {| cmdResults := cmdResults w1 ++ [cr]; spawned := spawned w1;
                  clockReads := clockReads w1 |}).
    assert (RunCmds fuel (n :: cmdList) w =
              if negb (ExitCode cr =? 0) then RunCmds fuel cmdList w2
              else (let* _ := CheckExecution fuel cr in RunCmds fuel cmdList) w2)
      as ->.
    { simpl. rewrite (bind_Ret _ _ _ _ _ Hrun).
      rewrite (bind_Ret _ _ w1 w2 tt) by reflexivity.
      by destruct (negb _). }
    assert (∀ w3 checks,
              cmdResults w3 = cmdResults w2 → spawned w3 = spawned w2 ++ checks →
              Forall isCheckArgs checks →
              ∃ results procs,
                cmdResults (snd (RunCmds fuel cmdList w3)) = cmdResults w ++ results
                ∧ spawned (snd (RunCmds fuel cmdList w3)) = spawned w ++ procs
                ∧ Forall2 (λ cr n, fresh (cmdPrefix ++ n) cr) results
                          (take (length results) (n :: cmdList))
                ∧ (fst (RunCmds fuel cmdList w3) = Ret tt →
                   length results = length (n :: cmdList))
                ∧ Forall (λ argv, (∃ n', n' ∈ n :: cmdList
                                        ∧ argv = cmdArgsOf (cmdPrefix ++ n'))
                                  ∨ isCheckArgs argv) procs) as Hrest.
    { intros w3 checks Hres3 Hsp3 Hchecks.
      destruct (IH w3) as (results & procs & Hres & Hsp & Hfr & Hlen & Hprocs).
      exists (cr :: results), (cmdArgsOf (cmdPrefix ++ n) :: checks ++ procs).
      rewrite Hres, Hsp, Hres3, Hsp3. simpl.
      rewrite <- !app_assoc. simpl. split_and!; [done|done| | |].
      - by constructor.
      - intros Hret. by rewrite Hlen.
      - constructor; [left; exists n; split; [left|done]|].
        apply Forall_app. split.
        + eapply Forall_impl; [exact Hchecks|]. by right.
        + eapply Forall_impl; [exact Hprocs|]. simpl.
          intros argv [(n' & Hin & ->)|Hc]; [left|by right].
          exists n'. split; [by right|done]. }
    destruct (negb (ExitCode cr =? 0)).
    + apply (Hrest w2 []); [done|by rewrite app_nil_r|constructor].
    + destruct (CheckExecution_spec fuel cr w2) as (checks & Hres3 & Hsp3 & Hchecks).
      unfold bind.
      destruct (CheckExecution fuel cr w2) as [[r|msg|] w3]; simpl in Hres3, Hsp3.
      * by apply (Hrest w3 checks).
      * exists [cr], (cmdArgsOf (cmdPrefix ++ n) :: checks).
        simpl. rewrite Hres3, Hsp3. simpl. rewrite <- !app_assoc. simpl.
        split_and!; [done|done|by constructor|done|].
        constructor; [left; exists n; split; [left|done]|].
        eapply Forall_impl; [exact Hchecks|]. by right.
      * exists [cr], (cmdArgsOf (cmdPrefix ++ n) :: checks).
        simpl. rewrite Hres3, Hsp3. simpl. rewrite <- !app_assoc. simpl.
        split_and!; [done|done|by constructor|done|].
        constructor; [left; exists n; split; [left|done]|].
        eapply Forall_impl; [exact Hchecks|]. by right.
Qed.


Lemma Split_nonempty (s : gostring) (sep : ascii) :
  ∃ h t, Strings.Split s sep = h :: t.
Proof.
  destruct s as [|c r]; simpl; [eauto|].
  destruct (Ascii.eqb c sep); [eauto|].
  destruct (Strings.Split r sep); eauto.
Qed.

(** The argument vector of a command with the prefix: the program
    [neutron], then a word that begins with [lbaas-]. *)
Lemma cmdArgsOf_prefix (n : gostring) :
  ∃ h t, Strings.Split n " " = h :: t
         ∧ cmdArgsOf (cmdPrefix ++ n)
           = str "neutron" :: (str "lbaas-" ++ h) :: t ++ [str "--format"; str "json"].
Proof.
  destruct (Split_nonempty n " ") as (h & t & Hs). exists h, t.
  split; [done|]. unfold cmdArgsOf.
  change (cmdPrefix ++ n) with (str "neutron" ++ " " :: str "lbaas-" ++ n).
  rewrite Split_app_sep.
  - change (str "lbaas-" ++ n) with ("l" :: "b" :: "a" :: "a" :: "s" :: "-" :: n).
    simpl. by rewrite Hs.
  - intros H. apply list_elem_of_In in H. vm_compute in H. intuition discriminate.
Qed.

End PipelineLemmas.

(** ** The Completion Poller: operation kind *)

Section PollerClaims.

Context {E : Env}.


(** C9 (as the code has it).  When the operation of a checked command is
    neither create nor update, so in particular when it is show, list or
    delete, the Poller does not enter the loop: it spawns no process,
    assigns the second word of the command followed by [" done"] to
    [Checked], and assigns to [CheckedDuration] the execution duration
    plus the time that passed between its two readings of the clock. *)
Theorem no_poll_when_not_create_update (fuel : nat) (rlt : CommandResult)
    (w : World) (args1 resourceType operation : gostring) :
  operationKind (Command rlt) = Ret (args1, resourceType, operation) →
  operation ≠ str "create" → operation ≠ str "update" →
  ∃ rlt',
    CheckExecution fuel rlt w =
      (Ret rlt', {| cmdResults := cmdResults w; spawned := spawned w;
                    clockReads := S (S (clockReads w)) |})
    ∧ Checked rlt' = args1 ++ str " done"
    ∧ CheckedDuration rlt' =
        wrapInt (Time_Sub (clock (S (clockReads w))) (clock (clockReads w))
                 + Duration rlt)
    ∧ (clock (S (clockReads w)) = clock (clockReads w) →
       minInt ≤ Duration rlt ≤ maxInt →
       CheckedDuration rlt' = Duration rlt).
Proof.
  intros Hk Hc Hu.
  rewrite (CheckExecution_no_poll fuel rlt w args1 resourceType operation)
    by done.
  eexists. split; [reflexivity|].
  simpl. split_and!; try done.
  intros -> Hd. unfold Time_Sub. rewrite Z.sub_diag.
  rewrite wrapInt_small; unfold minInt, maxInt in *; lia.
Qed.

End PollerClaims.



Lemma no_poll_when_not_create_update_witness :
  let E := exampleEnv allSucceed in
  let rlt := {| Seq := 0; Command := str "neutron lbaas-loadbalancer-list";
                Out := []; Err := []; ExitCode := 0;
                Duration := 5; Checked := []; CheckedDuration := 0 |} in
  let args1 := str "lbaas-loadbalancer-list" in
  ∃ rlt',
    CheckExecution 0 rlt initWorld =
      (Ret rlt', {| cmdResults := []; spawned := []; clockReads := 2 |})
    ∧ Checked rlt' = args1 ++ str " done"
    ∧ CheckedDuration rlt' = wrapInt (Time_Sub (clock 1) (clock 0) + Duration rlt)
    ∧ (clock 1 = clock 0 → minInt ≤ Duration rlt ≤ maxInt →
       CheckedDuration rlt' = Duration rlt).
Proof.
  intros E rlt args1.
  apply (no_poll_when_not_create_update (E := E) 0 rlt initWorld args1
           (str "loadbalancer") (str "list")).
  - reflexivity.
  - discriminate.
  - discriminate.
Defined.

(** C9, counterexample.  For the command [neutron lbaas-loadbalancer-list],
    run in 5 ns, with a clock that advances by a microsecond between two
    readings, the Poller computes the text
    ["lbaas-loadbalancer-list done"], not ["list done"], and the duration
    1005 ns, not 5 ns. *)
Lemma no_poll_counterexample :
  let E := exampleEnv allSucceed in
  let rlt := {| Seq := 0; Command := str "neutron lbaas-loadbalancer-list";
                Out := []; Err := []; ExitCode := 0;
                Duration := 5; Checked := []; CheckedDuration := 0 |} in
  ∃ rlt' w',
    CheckExecution 1 rlt initWorld = (Ret rlt', w')
    ∧ operationKind (Command rlt)
      = Ret (str "lbaas-loadbalancer-list", str "loadbalancer", str "list")
    ∧ Checked rlt' = str "lbaas-loadbalancer-list done"
    ∧ Checked rlt' ≠ str "list done"
    ∧ CheckedDuration rlt' = 1005
    ∧ CheckedDuration rlt' ≠ Duration rlt.
Proof.
  intros E rlt. eexists _, _. split; [vm_compute; reflexivity|].
  vm_compute. split_and!; done.
Qed.

(** ** The Command Runner and the Orchestrator *)

Section OrchestratorClaims.

Context {E : Env}.

(** The records of a run from the initial world, by position. *)
Lemma RunCmds_record (fuel : nat) (cmdList : list gostring) (i : nat)
    (cr : CommandResult) :
  cmdResults (snd (RunCmds fuel cmdList initWorld)) !! i = Some cr →
  ∃ n, cmdList !! i = Some n ∧ fresh (cmdPrefix ++ n) cr.
Proof.
  destruct (RunCmds_spec fuel cmdList initWorld)
    as (results & procs & -> & _ & Hfresh & _).
  simpl. intros Hi.
  destruct (Forall2_lookup_l _ _ _ _ _ Hfresh Hi) as (n & Hn & Hf).
  exists n. split; [|done]. by apply lookup_take_Some in Hn as [? _].
Qed.

(** No record of the final output is ever checked: in the global
    [cmdResults] the fields [Checked] and [CheckedDuration] keep the
    values the Command Runner gave them. *)
Lemma results_never_checked (fuel : nat) (cmdList : list gostring) :
  Forall (λ cr, Checked cr = [] ∧ CheckedDuration cr = 0)
         (cmdResults (snd (RunCmds fuel cmdList initWorld))).
Proof.
  apply Forall_lookup. intros i cr Hi.
  destruct (RunCmds_record fuel cmdList i cr Hi) as (n & _ & _ & _ & ? & ?).
  done.
Qed.

(** C6 (as the code has it).  The i-th record of the output is the record
    of the i-th command, and its sequence number is 0: the Command
    Runner sets it to 0 and nothing assigns it afterwards. *)
Theorem sequence_numbers_zero (fuel : nat) (cmdList : list gostring) (i : nat)
    (cr : CommandResult) :
  cmdResults (snd (RunCmds fuel cmdList initWorld)) !! i = Some cr →
  Seq cr = 0 ∧ ∃ n, cmdList !! i = Some n ∧ Command cr = cmdPrefix ++ n.
Proof.
  intros Hi.
  destruct (RunCmds_record fuel cmdList i cr Hi) as (n & Hn & Hs & Hc & _).
  split; [done|]. by exists n.
Qed.

(** When no process starts, the Orchestrator returns, with one process
    and one record for each command. *)
Lemma RunCmds_none_starts (fuel : nat) (cmdList : list gostring) (w : World) :
  (∀ k argv, ∃ e, process k argv = StartFails e) →
  fst (RunCmds fuel cmdList w) = Ret tt
  ∧ length (cmdResults (snd (RunCmds fuel cmdList w)))
    = (length (cmdResults w) + length cmdList)%nat
  ∧ spawned (snd (RunCmds fuel cmdList w))
    = spawned w ++ ((λ n, cmdArgsOf (cmdPrefix ++ n)) <$> cmdList).
Proof.
  intros Hnone. revert w. induction cmdList as [|n cmdList IH]; intros w.
  - simpl. split_and!; [done|lia|by rewrite app_nil_r].
  - destruct (RunCommand_spec (cmdPrefix ++ n) w) as (cr & Hrun & _ & _ & Hout).
    destruct (Hnone (length (spawned w)) (cmdArgsOf (cmdPrefix ++ n))) as [e He].
    rewrite He in Hout. destruct Hout as (_ & Hcode & _).
    set (w2 := {| cmdResults := cmdResults w ++ [cr];
                  spawned := spawned w ++ [cmdArgsOf (cmdPrefix ++ n)];
                  clockReads := S (S (clockReads w)) |}).
    assert (RunCmds fuel (n :: cmdList) w = RunCmds fuel cmdList w2) as ->.
    { simpl. rewrite (bind_Ret _ _ _ _ _ Hrun).
      unfold bind at 1, appendResult at 1. by rewrite Hcode. }
    destruct (IH w2) as (Hret & Hlen & Hsp).
    split_and!; [done| |].
    + rewrite Hlen. simpl. rewrite length_app. simpl. lia.
    + rewrite Hsp. unfold w2. cbn [spawned]. by rewrite fmap_cons, <- app_assoc.
Qed.

(** The first command of a batch is always run: whatever happens later,
    its process is the next one spawned and its record the next one
    appended. *)
Lemma RunCmds_first (fuel : nat) (n : gostring) (cmdList : list gostring)
    (w : World) :
  ∃ cr w' results procs,
    RunCommand (cmdPrefix ++ n) w = (Ret cr, w')
    ∧ cmdResults (snd (RunCmds fuel (n :: cmdList) w))
      = cmdResults w ++ cr :: results
    ∧ spawned (snd (RunCmds fuel (n :: cmdList) w))
      = spawned w ++ cmdArgsOf (cmdPrefix ++ n) :: procs.
Proof.
  destruct (RunCommand_spec (cmdPrefix ++ n) w) as (cr & Hrun & _).
  set (w2 := {| cmdResults := cmdResults w ++ [cr];
                spawned := spawned w ++ [cmdArgsOf (cmdPrefix ++ n)];
                clockReads := S (S (clockReads w)) |}).
  assert (∃ results procs,
             cmdResults (snd (RunCmds fuel (n :: cmdList) w))
             = cmdResults w2 ++ results
             ∧ spawned (snd (RunCmds fuel (n :: cmdList) w))
               = spawned w2 ++ procs) as (results & procs & Hres & Hsp).
  { cbn [RunCmds]. rewrite (bind_Ret _ _ _ _ _ Hrun).
    rewrite (bind_Ret _ _ _ w2 tt) by reflexivity.
    destruct (negb (ExitCode cr =? 0)).
    - destruct (RunCmds_spec fuel cmdList w2) as (results & procs & ? & ? & _).
      by exists results, procs.
    - destruct (CheckExecution_spec fuel cr w2) as (checks & Hcres & Hcsp & _).
      unfold bind. destruct (CheckExecution fuel cr w2) as [[rlt'|msg|] w3];
        cbn [fst snd] in *.
      + destruct (RunCmds_spec fuel cmdList w3)
          as (results & procs & Hres & Hsp & _).
        exists results, (checks ++ procs).
        by rewrite Hres, Hsp, Hcres, Hcsp, <- app_assoc.
      + exists [], checks. by rewrite Hcres, Hcsp, app_nil_r.
      + exists [], checks. by rewrite Hcres, Hcsp, app_nil_r. }
  eexists cr, _, results, procs. split; [exact Hrun|].
  rewrite Hres, Hsp. unfold w2. cbn [cmdResults spawned].
  by rewrite <- !app_assoc.
Qed.

(** C4.  When the process of a command does not start, the Command Runner
    returns a record whose error text is the description of the error,
    not empty as this description is not, and whose exit code is -1.  The
    Orchestrator does not halt on it: in the final state of a run on the
    command and the rest of a batch, however the run ends, the record is
    appended to the results and no check is made for it; when the batch
    has a next command, the process of that command is the next one
    spawned and its record the next one appended; when the batch ends
    there, the run returns.  A batch of which no process starts is run to
    its end, with one process and one record for each command. *)
Theorem start_failure_recorded (cmd e : gostring) (w : World) :
  process (length (spawned w)) (cmdArgsOf cmd) = StartFails e →
  e ≠ [] →
  ∃ cr w',
    RunCommand cmd w = (Ret cr, w')
    ∧ Command cr = cmd ∧ Err cr = e ∧ Err cr ≠ [] ∧ ExitCode cr = -1
    ∧ Out cr = nilMap
    ∧ ∀ fuel n cmdList,
        cmd = cmdPrefix ++ n →
        RunCmds fuel (n :: cmdList) w
        = RunCmds fuel cmdList (snd (appendResult cr w'))
        ∧ (∃ results procs,
             cmdResults (snd (RunCmds fuel (n :: cmdList) w))
             = cmdResults w ++ cr :: results
             ∧ spawned (snd (RunCmds fuel (n :: cmdList) w))
               = spawned w ++ cmdArgsOf cmd :: procs
             ∧ (cmdList = [] →
                fst (RunCmds fuel (n :: cmdList) w) = Ret tt
                ∧ results = [] ∧ procs = [])
             ∧ (∀ n' rest, cmdList = n' :: rest →
                  ∃ cr' results' procs',
                    results = cr' :: results'
                    ∧ Command cr' = cmdPrefix ++ n'
                    ∧ procs = cmdArgsOf (cmdPrefix ++ n') :: procs'))
        ∧ ((∀ k argv, ∃ e', process k argv = StartFails e') →
           fst (RunCmds fuel (n :: cmdList) w) = Ret tt
           ∧ length (cmdResults (snd (RunCmds fuel (n :: cmdList) w)))
             = (length (cmdResults w) + S (length cmdList))%nat
           ∧ spawned (snd (RunCmds fuel (n :: cmdList) w))
             = spawned w
               ++ ((λ n, cmdArgsOf (cmdPrefix ++ n)) <$> n :: cmdList)).
Proof.
  intros Hproc He.
  destruct (RunCommand_spec cmd w) as (cr & Hrun & Hfresh & _ & Hout).
  rewrite Hproc in Hout. destruct Hout as (Herr & Hcode & Hnil).
  destruct Hfresh as (_ & Hcmd & _).
  eexists cr, _. split; [exact Hrun|].
  split_and!; try done; [congruence|].
  intros fuel n cmdList ->.
  set (w2 := {| cmdResults := cmdResults w ++ [cr];
                spawned := spawned w ++ [cmdArgsOf (cmdPrefix ++ n)];
                clockReads := S (S (clockReads w)) |}).
  assert (RunCmds fuel (n :: cmdList) w = RunCmds fuel cmdList w2) as Hstep.
  { cbn [RunCmds]. rewrite (bind_Ret _ _ _ _ _ Hrun).
    unfold bind at 1, appendResult at 1. by rewrite Hcode. }
  split_and!.
  - exact Hstep.
  - rewrite Hstep. destruct cmdList as [|n' rest].
    + exists [], []. cbn [RunCmds ret fst snd]. unfold w2. cbn [cmdResults spawned].
      split_and!; try done; intros ? ? [=].
    + destruct (RunCmds_first fuel n' rest w2)
        as (cr' & w3 & results' & procs' & Hrun' & Hres' & Hsp').
      destruct (RunCommand_spec (cmdPrefix ++ n') w2)
        as (cr'' & Hrun'' & (_ & Hcmd' & _) & _).
      rewrite Hrun' in Hrun''. injection Hrun'' as <- _.
      exists (cr' :: results'), (cmdArgsOf (cmdPrefix ++ n') :: procs').
      rewrite Hres', Hsp'. unfold w2. cbn [cmdResults spawned].
      rewrite <- !app_assoc. split_and!; try done.
      intros n'' rest'' [= <- <-]. by exists cr', results', procs'.
  - intros Hnone. rewrite Hstep.
    destruct (RunCmds_none_starts fuel cmdList w2 Hnone) as (Hret & Hlen & Hsp).
    rewrite Hret, Hlen, Hsp. unfold w2. cbn [cmdResults spawned].
    rewrite length_app, fmap_cons, <- app_assoc. cbn [length app].
    split_and!; [done|lia|done].
Qed.

(** C10.  Every process a run of the Orchestrator spawns, however the run
    ends, is a command of the list with the prefix ["neutron lbaas-"] put
    before it, or a check command of the Poller, which begins with the
    same prefix: its program is [neutron] and its first argument begins
    with [lbaas-].  The records hold the commands with the prefix, in the
    order of the list.  A command with the prefix is never the command
    itself. *)
Theorem executed_commands_prefixed (fuel : nat) (cmdList : list gostring)
    (w : World) :
  ∃ results procs,
    cmdResults (snd (RunCmds fuel cmdList w)) = cmdResults w ++ results
    ∧ spawned (snd (RunCmds fuel cmdList w)) = spawned w ++ procs
    ∧ Forall2 (λ cr n, Command cr = cmdPrefix ++ n) results
              (take (length results) cmdList)
    ∧ Forall (λ argv, (∃ n, n ∈ cmdList ∧ argv = cmdArgsOf (cmdPrefix ++ n))
                      ∨ isCheckArgs argv) procs
    ∧ Forall (λ argv, ∃ a1 more,
                argv = str "neutron" :: (str "lbaas-" ++ a1) :: more) procs
    ∧ ∀ n, cmdPrefix ++ n ≠ n ∧ cmdArgsOf (cmdPrefix ++ n) ≠ cmdArgsOf n.
Proof.
  destruct (RunCmds_spec fuel cmdList w)
    as (results & procs & Hres & Hsp & Hfresh & _ & Hprocs).
  exists results, procs. split_and!; try done.
  - eapply Forall2_impl; [exact Hfresh|]. by intros cr n (_ & ? & _).
  - eapply Forall_impl; [exact Hprocs|]. cbv beta.
    intros argv [(n & _ & ->)|(rt & id & ->)].
    + destruct (cmdArgsOf_prefix n) as (h & t & _ & ->). eauto.
    + destruct (cmdArgsOf_prefix (rt ++ str "-show " ++ id))
        as (h & t & _ & Heq).
      change (cmdPrefix ++ rt ++ str "-show " ++ id)
        with (str "neutron lbaas-" ++ rt ++ str "-show " ++ id) in Heq.
      rewrite Heq. eauto.
  - intros n. split.
    + intros Heq. apply (f_equal length) in Heq.
      rewrite length_app in Heq. unfold cmdPrefix in Heq.
      vm_compute (length (str _)) in Heq. lia.
    + destruct (cmdArgsOf_prefix n) as (h & t & Hs & ->).
      unfold cmdArgsOf. rewrite Hs. intros Heq.
      apply (f_equal length) in Heq. simpl in Heq.
      rewrite !length_app in Heq. simpl in Heq. lia.
Qed.

End OrchestratorClaims.

Lemma sequence_numbers_zero_witness :
  let E := exampleEnv allSucceed in
  let cmdList := [str "loadbalancer-list"; str "listener-list"] in
  ∃ cr, cmdResults (snd (RunCmds 1 cmdList initWorld)) !! 1%nat = Some cr
        ∧ Seq cr = 0
        ∧ ∃ n, cmdList !! 1%nat = Some n ∧ Command cr = cmdPrefix ++ n.
Proof.
  intros E cmdList. eexists. split; [vm_compute; reflexivity|].
  eapply (sequence_numbers_zero (E := E) 1 cmdList 1).
  vm_compute. reflexivity.
Defined.

(** C6, counterexample.  Of the two records of a run on two commands the
    second has sequence number 0 as the first has: the sequence numbers are
    not the positions, counted from 0 or from 1. *)
Lemma sequence_numbers_counterexample :
  let E := exampleEnv allSucceed in
  let run := RunCmds 1 [str "loadbalancer-list"; str "listener-list"] initWorld in
  fst run = Ret tt
  ∧ Seq <$> cmdResults (snd run) = [0; 0]
  ∧ ¬ (∀ i cr, cmdResults (snd run) !! i = Some cr → Seq cr = Z.of_nat i)
  ∧ ¬ (∀ i cr, cmdResults (snd run) !! i = Some cr → Seq cr = Z.of_nat i + 1).
Proof.
  intros E run. split; [by vm_compute|]. split; [by vm_compute|].
  split; intros H.
  - specialize (H 1%nat). vm_compute in H. by specialize (H _ eq_refl).
  - specialize (H 0%nat). vm_compute in H. by specialize (H _ eq_refl).
Qed.

(** C1, on the code.  A run on the one command [loadbalancer-list], whose
    process exits with code 0: the Poller, called on the record, computes
    the text ["lbaas-loadbalancer-list done"] and a duration, but on its
    own copy; the record of the output has the empty text and the duration
    0. *)
Theorem check_outcome_not_attached :
  let E := exampleEnv allSucceed in
  ∃ cr w',
    RunCmds 1 [str "loadbalancer-list"] initWorld = (Ret tt, w')
    ∧ cmdResults w' = [cr]
    ∧ ExitCode cr = 0
    ∧ Checked cr = [] ∧ CheckedDuration cr = 0
    ∧ ∃ rlt' w'', CheckExecution 1 cr initWorld = (Ret rlt', w'')
                  ∧ Checked rlt' = str "lbaas-loadbalancer-list done"
                  ∧ CheckedDuration rlt' = 2000.
Proof.
  intros E. eexists _, _. split; [vm_compute; reflexivity|].
  split; [reflexivity|]. split_and!; try reflexivity.
  eexists _, _. split; [vm_compute; reflexivity|]. by vm_compute.
Qed.

Lemma start_failure_recorded_witness :
  let E := exampleEnv noneStarts in
  let e := str "fork/exec /usr/bin/neutron: permission denied" in
  let cmd := cmdPrefix ++ str "loadbalancer-list" in
  let w := initWorld in
  ∃ cr w',
    RunCommand cmd w = (Ret cr, w')
    ∧ Command cr = cmd ∧ Err cr = e ∧ Err cr ≠ [] ∧ ExitCode cr = -1
    ∧ Out cr = nilMap
    ∧ ∀ fuel n cmdList,
        cmd = cmdPrefix ++ n →
        RunCmds fuel (n :: cmdList) w
        = RunCmds fuel cmdList (snd (appendResult cr w'))
        ∧ (∃ results procs,
             cmdResults (snd (RunCmds fuel (n :: cmdList) w))
             = cmdResults w ++ cr :: results
             ∧ spawned (snd (RunCmds fuel (n :: cmdList) w))
               = spawned w ++ cmdArgsOf cmd :: procs
             ∧ (cmdList = [] →
                fst (RunCmds fuel (n :: cmdList) w) = Ret tt
                ∧ results = [] ∧ procs = [])
             ∧ (∀ n' rest, cmdList = n' :: rest →
                  ∃ cr' results' procs',
                    results = cr' :: results'
                    ∧ Command cr' = cmdPrefix ++ n'
                    ∧ procs = cmdArgsOf (cmdPrefix ++ n') :: procs'))
        ∧ ((∀ k argv, ∃ e', process k argv = StartFails e') →
           fst (RunCmds fuel (n :: cmdList) w) = Ret tt
           ∧ length (cmdResults (snd (RunCmds fuel (n :: cmdList) w)))
             = (length (cmdResults w) + S (length cmdList))%nat
           ∧ spawned (snd (RunCmds fuel (n :: cmdList) w))
             = spawned w
               ++ ((λ n, cmdArgsOf (cmdPrefix ++ n)) <$> n :: cmdList)).
Proof.
  intros E e cmd w.
  apply (start_failure_recorded (E := E) cmd e initWorld).
  - reflexivity.
  - discriminate.
Defined.

(** ** Properties of the regular expressions *)

Section RegexpLemmas.

Import Regexp.

Lemma HasPrefix_spec (s p : gostring) :
  Strings.HasPrefix s p = true ↔ ∃ rest, s = p ++ rest.
Proof.
  revert s. induction p as [|a p IH]; intros s.
  - split; [intros _; by exists s|by destruct s].
  - destruct s as [|c s]; simpl; [split; [done|by intros [? ?]]|].
    rewrite andb_true_iff, IH. split.
    + intros [Hc [rest ->]]. apply Ascii.eqb_eq in Hc as ->. eauto.
    + intros [rest [= -> ->]]. split; [apply Ascii.eqb_refl|eauto].
Qed.

Lemma countPercent_app (a b : gostring) :
  countPercent (a ++ b) = (countPercent a + countPercent b)%nat.
Proof. unfold countPercent. by rewrite filter_app, length_app. Qed.

Lemma countPercent_cons (c : ascii) (s : gostring) :
  countPercent (c :: s)
  = ((if decide (c = "%") then 1 else 0) + countPercent s)%nat.
Proof. unfold countPercent. rewrite filter_cons. by case_decide. Qed.

Lemma countPercent_none (s : gostring) : "%" ∉ s → countPercent s = 0%nat.
Proof.
  induction s as [|c s IH]; [done|]. intros [Hc Hs]%not_elem_of_cons.
  rewrite countPercent_cons, IH by done. by rewrite decide_False.
Qed.

(** A replacement text without a dollar sign stands for itself. *)
Lemma expand_plain (matched v : gostring) : "$" ∉ v → expand matched v = v.
Proof.
  unfold expand. induction v as [|c v IH]; [done|].
  intros [Hc Hv]%not_elem_of_cons. cbn [expandFrom].
  destruct (Ascii.eqb_spec c "$") as [->|_]; [done|]. by rewrite IH.
Qed.

(** Replacing by a plain value adds no percent sign. *)
Lemma replaceAllFrom_count_le (text v : gostring) (k : nat) (src : gostring) :
  plain v →
  (countPercent (replaceAllFrom text v k src) ≤ countPercent src)%nat.
Proof.
  intros [Hp Hd]. revert k. induction src as [|c r IH]; intros k; [done|].
  cbn [replaceAllFrom]. rewrite (countPercent_cons c r). destruct k as [|k].
  - destruct (Strings.HasPrefix (c :: r) text).
    + rewrite countPercent_app, expand_plain, countPercent_none by done.
      specialize (IH (length text - 1)%nat). lia.
    + rewrite countPercent_cons. specialize (IH 0%nat). lia.
  - specialize (IH k). lia.
Qed.

(** Replacing a text that begins with a percent sign and occurs in the
    source removes a percent sign. *)
Lemma replaceAllFrom_count_lt (text v pre post : gostring) :
  plain v →
  (countPercent (replaceAllFrom ("%" :: text) v 0 (pre ++ "%" :: text ++ post))
   < countPercent (pre ++ "%" :: text ++ post))%nat.
Proof.
  intros Hv. induction pre as [|c pre IH].
  - simpl app. cbn [replaceAllFrom].
    assert (Strings.HasPrefix ("%" :: text ++ post) ("%" :: text) = true) as ->
      by (apply HasPrefix_spec; by exists post).
    destruct Hv as [Hp Hd].
    rewrite countPercent_app, expand_plain, countPercent_none by done.
    rewrite (countPercent_cons "%"), decide_True by done.
    pose proof (replaceAllFrom_count_le ("%" :: text) v
                  (length ("%" :: text) - 1) (text ++ post) (conj Hp Hd)).
    lia.
  - simpl app. cbn [replaceAllFrom].
    rewrite (countPercent_cons c (pre ++ _)).
    destruct (Strings.HasPrefix _ _) eqn:Hpre.
    + destruct Hv as [Hp Hd].
      rewrite countPercent_app, expand_plain, countPercent_none by done.
      pose proof (replaceAllFrom_count_le ("%" :: text) v
                    (length ("%" :: text) - 1)
                    (pre ++ "%" :: text ++ post) (conj Hp Hd)).
      apply HasPrefix_spec in Hpre as [rest Hrest].
      injection Hrest as -> _. rewrite decide_True by done. lia.
    + rewrite countPercent_cons. lia.
Qed.

Lemma matchVarAt_Some (s name rest : gostring) :
  matchVarAt s = Some (name, rest) →
  s = placeholder name ++ rest ∧ validName name = true.
Proof.
  destruct s as [|c0 r0]; [done|].
  destruct (Ascii.eqb_spec c0 "%") as [->|Hne];
    [|destruct c0 as [[] [] [] [] [] [] [] []]; done].
  destruct r0 as [|c1 r1]; [done|].
  destruct (Ascii.eqb_spec c1 "{") as [->|Hne];
    [|destruct c1 as [[] [] [] [] [] [] [] []]; done].
  destruct r1 as [|c2 r]; [done|].
  cbn [matchVarAt].
  destruct (isIdentStart c2) eqn:Hc2; [|done].
  pose proof (span_app isIdentChar r) as Happ.
  pose proof (span_forallb isIdentChar r) as Hrun.
  destruct (span isIdentChar r) as [run [|h rest']]; [done|].
  destruct (Ascii.eqb_spec h "}") as [->|Hne];
    [|destruct h as [[] [] [] [] [] [] [] []]; done].
  intros [= <- <-]. simpl in *. rewrite <- Happ, Hc2, Hrun.
  unfold placeholder. simpl. by rewrite <- app_assoc.
Qed.

(** The leftmost match, when there is one, is a placeholder that occurs
    in the string. *)
Lemma FindString_occurs (s : gostring) :
  FindString s ≠ [] →
  ∃ name pre post,
    FindString s = placeholder name ∧ validName name = true
    ∧ s = pre ++ placeholder name ++ post.
Proof.
  induction s as [|c r IH]; [done|]. cbn [FindString].
  destruct (matchVarAt (c :: r)) as [[name rest]|] eqn:Hm.
  - intros _. apply matchVarAt_Some in Hm as [Hs Hv].
    exists name, [], rest. by rewrite Hs.
  - intros Hne. destruct (IH Hne) as (name & pre & post & Hf & Hv & ->).
    exists name, (c :: pre), post. done.
Qed.

(** The name [ConstructFromTemplate] cuts out of a match. *)
Lemma slice_placeholder (name : gostring) :
  slice (placeholder name) 2 (length (placeholder name) - 1) = name.
Proof.
  unfold slice.
  assert (length (placeholder name) - 1 - 2 = length name)%nat as ->.
  { unfold placeholder. cbn [length]. rewrite length_app. simpl. lia. }
  unfold placeholder. cbn [drop]. apply take_app_length.
Qed.

End RegexpLemmas.

(** ** Properties of the Template Expander *)

Section ExpanderLemmas.

Import Regexp.

Implicit Types variables : gmap gostring (list gostring).

Lemma ConstructFromTemplate_S (fuel : nat) (template : gostring) variables
    (cmdList : list gostring) :
  ConstructFromTemplate (S fuel) template variables cmdList =
    match FindString template with
    | [] => Ret (cmdList ++ [template])
    | _ :: _ =>
        forRange
          (variables !!! slice (FindString template) 2
                            (length (FindString template) - 1))
          (λ k cmdList,
             ConstructFromTemplate fuel
               (ReplaceAllString (FindString template) template k)
               variables cmdList)
          cmdList
    end.
Proof. reflexivity. Qed.

(** The step of the expander on a template with a placeholder. *)
Lemma ConstructFromTemplate_step (fuel : nat) (template name : gostring)
    variables (cmdList : list gostring) :
  FindString template = placeholder name →
  ConstructFromTemplate (S fuel) template variables cmdList =
    forRange (variables !!! name)
      (λ k cmdList,
         ConstructFromTemplate fuel
           (ReplaceAllString (placeholder name) template k) variables cmdList)
      cmdList.
Proof.
  intros Hf. rewrite ConstructFromTemplate_S, Hf, slice_placeholder. done.
Qed.

Lemma forRange_Ret_impl {A S : Type} (l : list A) (body1 body2 : A → S → res S)
    (s s' : S) :
  (∀ k s0 s1, k ∈ l → body1 k s0 = Ret s1 → body2 k s0 = Ret s1) →
  forRange l body1 s = Ret s' → forRange l body2 s = Ret s'.
Proof.
  revert s. induction l as [|k l IH]; intros s Hb; [done|]. simpl.
  destruct (body1 k s) as [s1| |] eqn:H1; [|done..]. simpl.
  rewrite (Hb k s s1) by (done || left). simpl.
  apply IH. intros k' s0 s2 Hin. apply Hb. by right.
Qed.

Lemma forRange_ext {A S : Type} (l : list A) (body1 body2 : A → S → res S)
    (s : S) :
  (∀ k s0, k ∈ l → body1 k s0 = body2 k s0) →
  forRange l body1 s = forRange l body2 s.
Proof.
  revert s. induction l as [|k l IH]; intros s Hb; [done|]. simpl.
  rewrite (Hb k s) by left. destruct (body2 k s); [|done..]. simpl.
  apply IH. intros k' s0 Hin. apply Hb. by right.
Qed.

(** A loop whose body appends to the list appends the outputs of its
    rounds. *)
Lemma forRange_appends {A : Type} (l : list A)
    (body : A → list gostring → res (list gostring))
    (Q : list gostring → Prop) (s : list gostring) :
  (∀ k s0, k ∈ l → ∃ o, body k s0 = Ret (s0 ++ o) ∧ Q o) →
  ∃ os, forRange l body s = Ret (s ++ concat os)
        ∧ length os = length l ∧ Forall Q os.
Proof.
  revert s. induction l as [|k l IH]; intros s Hb.
  - exists []. simpl. by rewrite app_nil_r.
  - destruct (Hb k s) as (o & Ho & HQ); [left|].
    destruct (IH (s ++ o)) as (os & Hos & Hlen & HQs).
    { intros k' s0 Hin. apply Hb. by right. }
    exists (o :: os). simpl. rewrite Ho. simpl. rewrite Hos, <- app_assoc.
    split_and!; [done|by rewrite Hlen|by constructor].
Qed.

(** More fuel does not change a result. *)
Lemma ConstructFromTemplate_mono (fuel fuel' : nat) (template : gostring)
    variables (cmdList out : list gostring) :
  (fuel ≤ fuel')%nat →
  ConstructFromTemplate fuel template variables cmdList = Ret out →
  ConstructFromTemplate fuel' template variables cmdList = Ret out.
Proof.
  revert fuel' template cmdList out.
  induction fuel as [|fuel IH]; intros fuel' template cmdList out Hle; [done|].
  destruct fuel' as [|fuel']; [lia|].
  rewrite !ConstructFromTemplate_S.
  destruct (FindString template); [done|].
  apply forRange_Ret_impl. intros k s0 s1 _. apply IH. lia.
Qed.

(** With plain values the recursion ends: its depth is at most the number
    of percent signs of the template. *)
Lemma ConstructFromTemplate_terminates (fuel : nat) (template : gostring)
    variables (cmdList : list gostring) :
  plainValues variables →
  (countPercent template < fuel)%nat →
  ∃ out, ConstructFromTemplate fuel template variables cmdList
         = Ret (cmdList ++ out).
Proof.
  intros Hplain. revert template cmdList.
  induction fuel as [|fuel IH]; intros template cmdList Hlt; [lia|].
  destruct (FindString template) as [|c m] eqn:Hf.
  - exists [template]. by rewrite ConstructFromTemplate_S, Hf.
  - destruct (FindString_occurs template) as (name & pre & post & Hn & Hv & Ht);
      [by rewrite Hf|].
    rewrite (ConstructFromTemplate_step _ _ name) by done.
    destruct (forRange_appends (variables !!! name)
                (λ k cmdList, ConstructFromTemplate fuel
                   (ReplaceAllString (placeholder name) template k)
                   variables cmdList)
                (λ _, True) cmdList) as (os & Hos & _).
    + intros k s0 Hk.
      destruct (IH (ReplaceAllString (placeholder name) template k) s0)
        as [o Ho]; [|by exists o].
      pose proof (replaceAllFrom_count_lt ("{" :: name ++ ["}"]) k pre post
                    (Hplain name k Hk)) as Hcount.
      unfold ReplaceAllString. rewrite Ht.
      change (placeholder name) with ("%" :: "{" :: name ++ ["}"]).
      simpl app in *. rewrite Ht in Hlt. simpl app in Hlt. lia.
    + eauto.
Qed.

End ExpanderLemmas.

Section ExpanderTermination.

Import Regexp.

(** C3 (as the code has it).  For every template and every mapping whose
    values contain neither a percent sign nor a dollar sign, the
    recursion of the Template Expander ends, with a result that more fuel
    does not change: each step replaces every occurrence of the leftmost
    placeholder at once, which removes at least one percent sign from
    the template and adds none. *)
Theorem expansion_terminates (template : gostring)
    (variables : gmap gostring (list gostring)) :
  plainValues variables →
  (∃ out, ∀ fuel, (countPercent template < fuel)%nat →
          ConstructFromTemplate fuel template variables [] = Ret out)
  ∧ (∀ name k,
       FindString template = placeholder name →
       k ∈ variables !!! name →
       (countPercent (ReplaceAllString (placeholder name) template k)
        < countPercent template)%nat).
Proof.
  intros Hplain. split.
  - destruct (ConstructFromTemplate_terminates (S (countPercent template))
                template variables [] Hplain ltac:(lia)) as [out Hout].
    exists out. intros fuel Hfuel.
    eapply ConstructFromTemplate_mono; [|exact Hout]. lia.
  - intros name k Hf Hk.
    destruct (FindString_occurs template) as (name' & pre & post & Hn & _ & Ht).
    { rewrite Hf. done. }
    rewrite Hf in Hn. rewrite Hn, Ht. unfold ReplaceAllString.
    pose proof (replaceAllFrom_count_lt ("{" :: name' ++ ["}"]) k pre post
                  (Hplain name k Hk)) as Hcount.
    exact Hcount.
Qed.

End ExpanderTermination.

(** The values of the example mapping are plain. *)
Lemma example_plainValues :
  plainValues {[ str "x" := [str "1"; str "2"]; str "y" := [str "a"] ]}.
Proof.
  intros name v.
  destruct (decide (name = str "x")) as [->|Hx];
    [|destruct (decide (name = str "y")) as [->|Hy]].
  - rewrite lookup_total_insert_eq.
    intros [->|[->|H%elem_of_nil]%elem_of_cons]%elem_of_cons; [| |done];
      split; intros H%list_elem_of_In; vm_compute in H; intuition discriminate.
  - rewrite lookup_total_insert_ne, lookup_total_singleton_eq by done.
    intros [->|H%elem_of_nil]%elem_of_cons; [|done].
    split; intros H%list_elem_of_In; vm_compute in H; intuition discriminate.
  - rewrite lookup_total_insert_ne, lookup_total_singleton_ne by done.
    by intros H%elem_of_nil.
Qed.

Lemma expansion_terminates_witness :
  let template := str "create --name lb%{x} %{y}" in
  let variables : gmap gostring (list gostring) :=
    {[ str "x" := [str "1"; str "2"]; str "y" := [str "a"] ]} in
  plainValues variables
  ∧ (∃ out, ∀ fuel, (countPercent template < fuel)%nat →
            ConstructFromTemplate fuel template variables [] = Ret out)
  ∧ (∀ name k,
       Regexp.FindString template = Regexp.placeholder name →
       k ∈ variables !!! name →
       (countPercent (Regexp.ReplaceAllString (Regexp.placeholder name) template k)
        < countPercent template)%nat).
Proof.
  intros template variables.
  split; [exact example_plainValues|].
  exact (expansion_terminates template variables example_plainValues).
Defined.

(** C3, counterexample.  With the template ["%{x}"] and the value ["%{x}"]
    for [x], each step yields the template again: the recursion does not
    end, whatever the fuel.  The value ["$0"] does the same, as [$0] in a
    replacement text stands for the match. *)
Lemma expansion_diverges :
  (∀ fuel, ConstructFromTemplate fuel (str "%{x}")
             {[ str "x" := [str "%{x}"] ]} [] = Timeout)
  ∧ (∀ fuel, ConstructFromTemplate fuel (str "%{x}")
               {[ str "x" := [str "$0"] ]} [] = Timeout).
Proof.
  split; intros fuel; induction fuel as [|fuel IH]; try done;
    rewrite (ConstructFromTemplate_step _ _ (str "x")) by reflexivity;
    rewrite lookup_total_singleton_eq; simpl;
    match goal with
    | |- context [Regexp.ReplaceAllString ?a ?b ?c] =>
        change (Regexp.ReplaceAllString a b c) with (str "%{x}")
    end; by rewrite IH.
Qed.

(** ** Templates as sequences of characters and placeholders *)

Section TokenLemmas.

Import Regexp.

Lemma forallb_not_elem (p : ascii → bool) (c : ascii) (a : gostring) :
  p c = false → forallb p a = true → c ∉ a.
Proof.
  intros Hc Ha Hin. rewrite forallb_forall in Ha.
  apply list_elem_of_In in Hin. specialize (Ha _ Hin). congruence.
Qed.

Lemma render_cons (t : tok) (T : list tok) :
  render (t :: T) = render1 t ++ render T.
Proof. reflexivity. Qed.

Lemma render_app (T1 T2 : list tok) :
  render (T1 ++ T2) = render T1 ++ render T2.
Proof. unfold render. apply bind_app. Qed.

Lemma render_Lits (v : gostring) : render (Lit <$> v) = v.
Proof.
  induction v as [|c v IH]; [done|].
  rewrite fmap_cons, render_cons, IH. done.
Qed.

Lemma validName_inv (x : gostring) :
  validName x = true →
  ∃ c run, x = c :: run ∧ isIdentStart c = true
           ∧ forallb isIdentChar run = true.
Proof.
  destruct x as [|c run]; [done|]. simpl.
  intros [? ?]%andb_prop. eauto.
Qed.

Lemma isIdentStart_isIdentChar (c : ascii) :
  isIdentStart c = true → isIdentChar c = true.
Proof.
  unfold isIdentStart, isIdentChar.
  intros [-> | ->]%orb_prop; [done|]. apply orb_true_r.
Qed.

Lemma validName_chars (x : gostring) :
  validName x = true → forallb isIdentChar x = true.
Proof.
  intros (c & run & -> & Hc & Hrun)%validName_inv. simpl.
  by rewrite isIdentStart_isIdentChar, Hrun.
Qed.

Lemma matchVarAt_placeholder (x rest : gostring) :
  validName x = true →
  matchVarAt (placeholder x ++ rest) = Some (x, rest).
Proof.
  intros (c & run & -> & Hc & Hrun)%validName_inv.
  unfold placeholder. cbn [app matchVarAt]. rewrite Hc.
  rewrite <- app_assoc. cbn [app]. by rewrite (span_all isIdentChar run).
Qed.

Lemma matchVarAt_not_percent (c : ascii) (s : gostring) :
  c ≠ "%" → matchVarAt (c :: s) = None.
Proof. destruct c as [[] [] [] [] [] [] [] []]; done. Qed.

Lemma FindString_render (T : list tok) :
  Forall wfTok T →
  FindString (render T) = match names T with
                          | [] => []
                          | x :: _ => placeholder x
                          end.
Proof.
  induction 1 as [|[c|x] T Hwf _ IH]; [done| |].
  - rewrite render_cons. cbn [render1 app FindString].
    by rewrite matchVarAt_not_percent.
  - rewrite render_cons. cbn [render1]. simpl in Hwf.
    pose proof (matchVarAt_placeholder x (render T) Hwf) as Hm.
    unfold placeholder in *. cbn [app FindString] in *. by rewrite Hm.
Qed.

Lemma findAllFrom_skip (p s : gostring) :
  findAllFrom (length p) (p ++ s) = findAllFrom 0 s.
Proof. induction p as [|c p IH]; [done|]. exact IH. Qed.

Lemma FindAllString_render (T : list tok) :
  Forall wfTok T →
  FindAllString (render T) = placeholder <$> names T.
Proof.
  unfold FindAllString.
  induction 1 as [|[c|x] T Hwf _ IH]; [done| |].
  - rewrite render_cons. cbn [render1 app findAllFrom].
    by rewrite matchVarAt_not_percent.
  - rewrite render_cons. cbn [render1]. simpl in Hwf.
    pose proof (matchVarAt_placeholder x (render T) Hwf) as Hm.
    unfold placeholder in *. cbn [app findAllFrom] in *. rewrite Hm.
    change (names (Var x :: T)) with (x :: names T). rewrite fmap_cons.
    f_equal. rewrite <- IH.
    pose proof (findAllFrom_skip ("{" :: x ++ ["}"]) (render T)) as Hs.
    cbn [length] in Hs. rewrite length_app in Hs. simpl in Hs.
    replace (length x + 1)%nat with (S (length x)) in Hs by lia.
    rewrite <- app_assoc in Hs. simpl in Hs.
    replace (length x + 2)%nat with (S (S (length x))) by lia.
    rewrite <- app_assoc. exact Hs.
Qed.

Lemma usedNames_render (T : list tok) :
  Forall wfTok T → usedNames (render T) = remove_dups (names T).
Proof.
  intros Hwf. unfold usedNames. rewrite FindAllString_render by done.
  f_equal. rewrite <- list_fmap_compose.
  rewrite <- (list_fmap_id (names T)) at 2.
  apply list_fmap_ext. intros i x _. apply slice_placeholder.
Qed.

Lemma replaceAllFrom_skip (text v p s : gostring) :
  replaceAllFrom text v (length p) (p ++ s) = replaceAllFrom text v 0 s.
Proof. induction p as [|c p IH]; [done|]. exact IH. Qed.

Lemma replaceAllFrom_0_cons (text v : gostring) (c : ascii) (r : gostring) :
  replaceAllFrom text v 0 (c :: r) =
    if Strings.HasPrefix (c :: r) text then
      expand text v ++ replaceAllFrom text v (length text - 1) r
    else c :: replaceAllFrom text v 0 r.
Proof. reflexivity. Qed.

Lemma replaceAllFrom_no_percent (text v p s : gostring) :
  "%" ∉ p →
  replaceAllFrom ("%" :: text) v 0 (p ++ s)
  = p ++ replaceAllFrom ("%" :: text) v 0 s.
Proof.
  induction p as [|c p IH]; [done|].
  intros [Hc Hp]%not_elem_of_cons. cbn [app replaceAllFrom Strings.HasPrefix].
  destruct (Ascii.eqb_spec c "%") as [->|_]; [done|].
  cbn [andb]. by rewrite IH.
Qed.

(** Two identifiers of which one, with its closing brace, begins the
    other with its closing brace, are the same. *)
Lemma ident_prefix_eq (x y rest : gostring) :
  forallb isIdentChar x = true → forallb isIdentChar y = true →
  Strings.HasPrefix (y ++ "}" :: rest) (x ++ ["}"]) = true → x = y.
Proof.
  revert y. induction x as [|a x IH]; intros y Hx Hy Hp;
    destruct y as [|b y]; cbn [app Strings.HasPrefix forallb] in *.
  - done.
  - apply andb_prop in Hy as [Hb _]. apply andb_prop in Hp as [Hp _].
    apply Ascii.eqb_eq in Hp as ->. done.
  - apply andb_prop in Hx as [Ha _]. apply andb_prop in Hp as [Hp _].
    apply Ascii.eqb_eq in Hp as <-. done.
  - apply andb_prop in Hx as [_ Hx]. apply andb_prop in Hy as [_ Hy].
    apply andb_prop in Hp as [Hab Hp]. apply Ascii.eqb_eq in Hab as ->.
    f_equal. by apply IH.
Qed.

Lemma HasPrefix_placeholder_ne (x y rest : gostring) :
  validName x = true → validName y = true → y ≠ x →
  Strings.HasPrefix (placeholder y ++ rest) (placeholder x) = false.
Proof.
  intros Hx Hy Hne. apply not_true_is_false. intros Hp.
  apply Hne. symmetry. apply (ident_prefix_eq x y rest).
  - by apply validName_chars.
  - by apply validName_chars.
  - unfold placeholder in Hp. cbn [app Strings.HasPrefix] in Hp.
    rewrite !Ascii.eqb_refl in Hp. cbn [andb] in Hp.
    rewrite <- app_assoc in Hp. exact Hp.
Qed.

Lemma placeholder_tail_no_percent (y : gostring) :
  validName y = true → "%" ∉ "{" :: y ++ ["}"].
Proof.
  intros Hy%validName_chars.
  rewrite not_elem_of_cons, not_elem_of_app, not_elem_of_cons.
  split_and!;
    first [done | by apply (forallb_not_elem isIdentChar)
          | apply not_elem_of_nil].
Qed.

(** Replacing a placeholder in a template replaces the placeholders of
    this name, and nothing else. *)
Lemma ReplaceAllString_render (x v : gostring) (T : list tok) :
  validName x = true → "$" ∉ v → Forall wfTok T →
  ReplaceAllString (placeholder x) (render T) v = render (subst x v T).
Proof.
  intros Hx Hv. unfold ReplaceAllString, subst.
  induction 1 as [|[c|y] T Hwf _ IH]; [done| |].
  - rewrite render_cons. cbn [render1 app mbind list_bind substTok].
    rewrite render_cons. cbn [render1 app]. rewrite <- IH.
    unfold placeholder. cbn [replaceAllFrom Strings.HasPrefix].
    destruct (Ascii.eqb_spec c "%") as [->|_]; [done|]. done.
  - simpl in Hwf. rewrite render_cons. cbn [render1 mbind list_bind substTok].
    rewrite render_app. fold (mbind (M := list) (substTok x v) T).
    fold (render (T ≫= substTok x v)). rewrite <- IH.
    destruct (decide (y = x)) as [->|Hne].
    + rewrite render_Lits.
      assert (Strings.HasPrefix (placeholder x ++ render T) (placeholder x) = true)
        as Hp by (apply HasPrefix_spec; eauto).
      unfold placeholder in *. cbn [app replaceAllFrom] in *. rewrite Hp.
      rewrite expand_plain by done. f_equal.
      cbn [length]. rewrite Nat.sub_succ, Nat.sub_0_r.
      apply replaceAllFrom_skip.
    + pose proof (HasPrefix_placeholder_ne x y (render T) Hx Hwf Hne) as Hp.
      pose proof (replaceAllFrom_no_percent ("{" :: x ++ ["}"]) v
                    ("{" :: y ++ ["}"]) (render T)
                    (placeholder_tail_no_percent y Hwf)) as Hn.
      change (render [Var y]) with (placeholder y ++ []).
      rewrite app_nil_r.
      change (placeholder y ++ render T)
        with ("%" :: ("{" :: y ++ ["}"]) ++ render T) in *.
      change (placeholder x) with ("%" :: "{" :: x ++ ["}"]) in *.
      rewrite replaceAllFrom_0_cons, Hp, Hn. done.
Qed.

Lemma subst_wf (x v : gostring) (T : list tok) :
  "%" ∉ v → Forall wfTok T → Forall wfTok (subst x v T).
Proof.
  intros Hv. unfold subst. induction 1 as [|[c|y] T Hwf _ IH]; [done| |].
  - by constructor.
  - cbn [mbind list_bind substTok]. apply Forall_app. split; [|exact IH].
    destruct (decide (y = x)); [|by constructor].
    apply Forall_fmap, Forall_forall. intros c Hc. simpl. by intros ->.
Qed.

Lemma names_app (T1 T2 : list tok) : names (T1 ++ T2) = names T1 ++ names T2.
Proof. apply omap_app. Qed.

Lemma names_Lits (v : gostring) : names (Lit <$> v) = [].
Proof. induction v as [|c v IH]; [done|]. exact IH. Qed.

Lemma names_subst (x v : gostring) (T : list tok) :
  names (subst x v T) = filter (λ y, y ≠ x) (names T).
Proof.
  unfold subst. induction T as [|[c|y] T IH]; [done| |].
  - exact IH.
  - cbn [mbind list_bind substTok]. rewrite names_app.
    fold (mbind (M := list) (substTok x v) T). rewrite IH.
    change (names (Var y :: T)) with (y :: names T). rewrite filter_cons.
    destruct (decide (y = x)) as [->|Hne].
    + rewrite names_Lits. by rewrite decide_False by (by intros H; apply H).
    + by rewrite decide_True.
Qed.

End TokenLemmas.

(** ** The number of commands the Template Expander emits *)

Section ExpanderCount.

Import Regexp.

Implicit Types variables : gmap gostring (list gostring).

Lemma percents_suffix (a b : gostring) :
  percentsBeginPlaceholders (a ++ b) = true →
  percentsBeginPlaceholders b = true.
Proof.
  induction a as [|c a IH]; [done|]. cbn [app percentsBeginPlaceholders].
  intros [_ H]%andb_prop. by apply IH.
Qed.

(** A template whose percent signs all begin placeholders is a sequence
    of other characters and of placeholders. *)
Lemma tokens_of_template (template : gostring) :
  percentsBeginPlaceholders template = true →
  ∃ T, Forall wfTok T ∧ render T = template.
Proof.
  remember (length template) as n eqn:Hn. revert template Hn.
  induction n as [n IH] using lt_wf_ind. intros template Hn Hp.
  destruct template as [|c r]; [by exists []|].
  cbn [percentsBeginPlaceholders] in Hp. apply andb_prop in Hp as [Hc Hr].
  destruct (Ascii.eqb_spec c "%") as [->|Hne].
  - apply bool_decide_eq_true in Hc as [[name rest] Hm].
    apply matchVarAt_Some in Hm as Hs. destruct Hs as [Hs Hv].
    assert (percentsBeginPlaceholders rest = true) as Hrest.
    { unfold placeholder in Hs. injection Hs as ->.
      apply (percents_suffix ("{" :: name ++ ["}"])). exact Hr. }
    destruct (IH (length rest)) with (template := rest) as (T & Hwf & HT);
      [|done|done|].
    { rewrite Hn, Hs, length_app. unfold placeholder. simpl. lia. }
    exists (Var name :: T). split; [by constructor|].
    by rewrite render_cons, HT, Hs.
  - destruct (IH (length r)) with (template := r) as (T & Hwf & HT);
      [rewrite Hn; simpl; lia|done|done|].
    exists (Lit c :: T). split; [by constructor|].
    by rewrite render_cons, HT.
Qed.

Lemma product_Permutation (l l' : list nat) :
  l ≡ₚ l' → product l = product l'.
Proof.
  induction 1 as [|a l l' _ IH|a b l|l1 l2 l3 _ IH1 _ IH2]; simpl;
    [done|by rewrite IH|lia|congruence].
Qed.

(** The product over the distinct names, one name taken out. *)
Lemma product_remove_dups (f : gostring → nat) (x : gostring)
    (l : list gostring) :
  x ∈ l →
  product (f <$> remove_dups l)
  = (f x * product (f <$> remove_dups (filter (λ y, y ≠ x) l)))%nat.
Proof.
  intros Hx.
  change (f x * product (f <$> remove_dups (filter (λ y, y ≠ x) l)))%nat
    with (product (f <$> (x :: remove_dups (filter (λ y, y ≠ x) l)))).
  apply product_Permutation, fmap_Permutation, NoDup_Permutation.
  - apply NoDup_remove_dups.
  - constructor; [|apply NoDup_remove_dups].
    rewrite elem_of_remove_dups, list_elem_of_filter. by intros [? _].
  - intros y. rewrite elem_of_cons, !elem_of_remove_dups, list_elem_of_filter.
    split.
    + intros Hy. destruct (decide (y = x)); [by left|by right].
    + by intros [->|[_ Hy]].
Qed.

Lemma length_concat_const {A : Type} (os : list (list A)) (n : nat) :
  Forall (λ o, length o = n) os → length (concat os) = (length os * n)%nat.
Proof.
  induction 1 as [|o os Ho _ IH]; [done|].
  simpl. rewrite length_app, IH, Ho. lia.
Qed.

Lemma names_valid (T : list tok) (x : gostring) :
  Forall wfTok T → x ∈ names T → validName x = true.
Proof.
  induction 1 as [|[c|y] T Hwf _ IH]; [by intros ?%elem_of_nil|exact IH|].
  change (names (Var y :: T)) with (y :: names T).
  intros [->|Hin]%elem_of_cons; [exact Hwf|by apply IH].
Qed.

(** The expansion of a template of tokens: the commands appended are as
    many as the product, over the distinct names, of the numbers of
    values, and none has a placeholder. *)
Lemma expand_tokens variables (n : nat) (T : list tok) (acc : list gostring) :
  (length (names T) ≤ n)%nat →
  Forall wfTok T →
  (∀ x v, x ∈ names T → v ∈ variables !!! x → plain v) →
  ∃ out,
    ConstructFromTemplate (S n) (render T) variables acc = Ret (acc ++ out)
    ∧ length out
      = product ((λ x, length (variables !!! x)) <$> remove_dups (names T))
    ∧ Forall (λ c, FindString c = []) out.
Proof.
  revert T acc. induction n as [|n IH]; intros T acc Hlen Hwf Hplain.
  - destruct (names T) as [|x l] eqn:Hnames; [|simpl in Hlen; lia].
    pose proof (FindString_render T Hwf) as Hf. rewrite Hnames in Hf.
    exists [render T]. rewrite ConstructFromTemplate_S, Hf.
    split_and!; [done|done|by constructor].
  - destruct (names T) as [|x l] eqn:Hnames.
    + pose proof (FindString_render T Hwf) as Hf. rewrite Hnames in Hf.
      exists [render T]. rewrite ConstructFromTemplate_S, Hf.
      split_and!; [done|done|by constructor].
    + pose proof (FindString_render T Hwf) as Hf. rewrite Hnames in Hf.
      assert (x ∈ names T) as Hx by (rewrite Hnames; left).
      pose proof (names_valid T x Hwf Hx) as Hvalid.
      rewrite (ConstructFromTemplate_step _ _ x) by done.
      set (P := product ((λ y, length (variables !!! y))
                           <$> remove_dups (filter (λ y, y ≠ x) (names T)))).
      destruct (forRange_appends (variables !!! x)
                  (λ k cmdList, ConstructFromTemplate (S n)
                     (ReplaceAllString (placeholder x) (render T) k)
                     variables cmdList)
                  (λ o, length o = P ∧ Forall (λ c, FindString c = []) o) acc)
        as (os & Hos & Hlenos & HQ).
      { intros k s0 Hk.
        destruct (Hplain x k ltac:(left) Hk) as [Hpc Hdl].
        rewrite ReplaceAllString_render by done.
        destruct (IH (subst x k T) s0) as (o & Ho & Hl & Hf').
        - rewrite names_subst, Hnames, filter_cons, decide_False
            by (by intros H; apply H).
          pose proof (length_filter (λ y, y ≠ x) l). simpl in Hlen. lia.
        - by apply subst_wf.
        - intros y v. rewrite names_subst, list_elem_of_filter, Hnames.
          intros [_ Hy]. by apply Hplain.
        - exists o. rewrite names_subst in Hl. done. }
      exists (concat os). split_and!; [done| |].
      * rewrite (length_concat_const os P).
        -- rewrite Hlenos, <- Hnames.
           rewrite (product_remove_dups _ x (names T)) by done. done.
        -- eapply Forall_impl; [exact HQ|]. by intros o [? _].
      * apply Forall_concat. eapply Forall_impl; [exact HQ|]. by intros o [_ ?].
Qed.

(** The expansion reads the values of the names of the template only. *)
Lemma expand_tokens_ext variables variables' (n : nat) (T : list tok)
    (acc : list gostring) :
  Forall wfTok T →
  (∀ x v, x ∈ names T → v ∈ variables !!! x → plain v) →
  (∀ x, x ∈ names T → variables' !!! x = variables !!! x) →
  ConstructFromTemplate n (render T) variables' acc
  = ConstructFromTemplate n (render T) variables acc.
Proof.
  revert T acc. induction n as [|n IH]; intros T acc Hwf Hplain Hsame; [done|].
  pose proof (FindString_render T Hwf) as Hf.
  destruct (names T) as [|x l] eqn:Hnames.
  - by rewrite !ConstructFromTemplate_S, Hf.
  - assert (x ∈ names T) as Hx by (rewrite Hnames; left).
    pose proof (names_valid T x Hwf Hx) as Hvalid.
    rewrite !(ConstructFromTemplate_step _ _ x) by done.
    rewrite Hsame by left. apply forRange_ext. intros k s0 Hk.
    destruct (Hplain x k ltac:(left) Hk) as [Hpc Hdl].
    rewrite ReplaceAllString_render by done.
    rewrite <- Hnames in *. apply IH.
    + by apply subst_wf.
    + intros y v. rewrite names_subst, list_elem_of_filter.
      intros [_ Hy]. by apply Hplain.
    + intros y. rewrite names_subst, list_elem_of_filter.
      intros [_ Hy]. by apply Hsame.
Qed.

(** C2 (as the code has it).  For every template in which every percent
    sign begins a placeholder, and value lists, for the placeholders
    used, whose values contain neither a percent sign nor a dollar sign:
    with k distinct used placeholders whose value lists have lengths
    n1..nk, the Template Expander emits exactly the product of the ni
    commands, none of which contains a placeholder; the value lists of
    placeholders that are not used do not affect the output. *)
Theorem expansion_count (template : gostring) variables :
  percentsBeginPlaceholders template = true →
  (∀ x v, x ∈ usedNames template → v ∈ variables !!! x → plain v) →
  ∃ out,
    (∀ fuel, (length (FindAllString template) < fuel)%nat →
             ConstructFromTemplate fuel template variables [] = Ret out)
    ∧ length out
      = product ((λ x, length (variables !!! x)) <$> usedNames template)
    ∧ Forall (λ c, FindString c = []) out
    ∧ ∀ variables',
        (∀ x, x ∈ usedNames template → variables' !!! x = variables !!! x) →
        ∀ fuel, (length (FindAllString template) < fuel)%nat →
                ConstructFromTemplate fuel template variables' [] = Ret out.
Proof.
  intros Hp Hplain.
  destruct (tokens_of_template template Hp) as (T & Hwf & <-).
  rewrite usedNames_render in * by done.
  rewrite FindAllString_render, length_fmap by done.
  assert (∀ x v, x ∈ names T → v ∈ variables !!! x → plain v) as Hplain'.
  { intros x v Hx. apply Hplain. by apply elem_of_remove_dups. }
  destruct (expand_tokens variables (length (names T)) T [] ltac:(lia) Hwf Hplain')
    as (out & Hout & Hlen & Hnone).
  exists out.
  assert (∀ fuel, (length (names T) < fuel)%nat →
                  ConstructFromTemplate fuel (render T) variables [] = Ret out)
    as Hfuel.
  { intros fuel Hlt. eapply ConstructFromTemplate_mono; [|exact Hout]. lia. }
  split_and!; [done|done|done|].
  intros variables' Hsame fuel Hlt.
  rewrite (expand_tokens_ext variables variables'); [by apply Hfuel|done|done|].
  intros x Hx. apply Hsame. by apply elem_of_remove_dups.
Qed.

End ExpanderCount.

Lemma expansion_count_witness :
  let template := str "create --name lb%{x} %{y}" in
  let variables : gmap gostring (list gostring) :=
    {[ str "x" := [str "1"; str "2"]; str "y" := [str "a"] ]} in
  percentsBeginPlaceholders template = true
  ∧ (∀ x v, x ∈ usedNames template → v ∈ variables !!! x → plain v)
  ∧ ∃ out,
      (∀ fuel, (length (Regexp.FindAllString template) < fuel)%nat →
               ConstructFromTemplate fuel template variables [] = Ret out)
      ∧ length out
        = product ((λ x, length (variables !!! x)) <$> usedNames template)
      ∧ Forall (λ c, Regexp.FindString c = []) out
      ∧ ∀ variables',
          (∀ x, x ∈ usedNames template → variables' !!! x = variables !!! x) →
          ∀ fuel, (length (Regexp.FindAllString template) < fuel)%nat →
                  ConstructFromTemplate fuel template variables' [] = Ret out.
Proof.
  intros template variables.
  assert (percentsBeginPlaceholders template = true) as H1 by reflexivity.
  assert (∀ x v, x ∈ usedNames template → v ∈ variables !!! x → plain v) as H2.
  { intros x v _. apply example_plainValues. }
  split; [exact H1|]. split; [exact H2|].
  exact (expansion_count template variables H1 H2).
Defined.

(** C2, counterexample.  The template ["%{x}"] uses the one placeholder
    [x], whose value list has length 1, but its value is ["%{y}"]: the
    expander emits the two commands ["1"] and ["2"], not one, and emits
    none when the value list of [y], a placeholder the template does not
    use, is taken away. *)
Lemma expansion_count_counterexample :
  let template := str "%{x}" in
  let variables : gmap gostring (list gostring) :=
    {[ str "x" := [str "%{y}"]; str "y" := [str "1"; str "2"] ]} in
  usedNames template = [str "x"]
  ∧ product ((λ x, length (variables !!! x)) <$> usedNames template) = 1%nat
  ∧ ConstructFromTemplate 3 template variables [] = Ret [str "1"; str "2"]
  ∧ ConstructFromTemplate 3 template (delete (str "y") variables) [] = Ret [].
Proof. by vm_compute. Qed.

(** A value without percent and dollar signs can complete a placeholder
    that the text around it begins: the template ["%{a%{x}b}"] uses the
    one placeholder [x]; with the value ["1"] it becomes ["%{a1b}"]. *)
Example expansion_nested_placeholder :
  usedNames (str "%{a%{x}b}") = [str "x"]
  ∧ percentsBeginPlaceholders (str "%{a%{x}b}") = false
  ∧ Regexp.ReplaceAllString (str "%{x}") (str "%{a%{x}b}") (str "1")
    = str "%{a1b}"
  ∧ ConstructFromTemplate 3 (str "%{a%{x}b}")
      {[ str "x" := [str "1"]; str "a1b" := [str "u"; str "v"] ]} []
    = Ret [str "u"; str "v"].
Proof. by vm_compute. Qed.


(** ** Properties of the argument handling *)

Section IndexOfLemmas.

Lemma indexFrom_absent (i : Z) (sa : list gostring) (item : gostring) :
  item ∉ sa → indexFrom i sa item = -1.
Proof.
  revert i. induction sa as [|n sa IH]; intros i; [done|].
  intros [Hne Hsa]%not_elem_of_cons. simpl.
  rewrite bool_decide_eq_false_2 by done. by apply IH.
Qed.

Lemma indexFrom_first (i : Z) (sa : list gostring) (item : gostring) (k : nat) :
  sa !! k = Some item →
  (∀ j, (j < k)%nat → sa !! j ≠ Some item) →
  indexFrom i sa item = i + Z.of_nat k.
Proof.
  revert i k. induction sa as [|n sa IH]; intros i k Hk Hfirst; [done|].
  simpl. destruct k as [|k].
  - injection Hk as ->. rewrite bool_decide_eq_true_2 by done. lia.
  - rewrite bool_decide_eq_false_2.
    + rewrite (IH (i + 1) k); [lia|done|].
      intros j Hj. apply (Hfirst (S j)). lia.
    + intros ->. by apply (Hfirst 0%nat); [lia|].
Qed.

Lemma indexFrom_present (i : Z) (sa : list gostring) (item : gostring) :
  item ∈ sa →
  ∃ k, sa !! k = Some item
       ∧ (∀ j, (j < k)%nat → sa !! j ≠ Some item)
       ∧ indexFrom i sa item = i + Z.of_nat k.
Proof.
  revert i. induction sa as [|n sa IH]; intros i; [by intros ?%elem_of_nil|].
  destruct (decide (n = item)) as [->|Hne].
  - intros _. exists 0%nat. split_and!; [done|lia|].
    simpl. rewrite bool_decide_eq_true_2 by done. lia.
  - intros [->|Hel]%elem_of_cons; [done|].
    destruct (IH (i + 1) Hel) as (k & Hk & Hmin & Heq).
    exists (S k). split_and!; [done| |].
    + intros [|j] Hj; [by intros [= ?]|]. apply Hmin. lia.
    + simpl. rewrite bool_decide_eq_false_2 by done. lia.
Qed.

Lemma indexFrom_range (i : Z) (sa : list gostring) (item : gostring) :
  indexFrom i sa item = -1
  ∨ i ≤ indexFrom i sa item < i + Z.of_nat (length sa).
Proof.
  revert i. induction sa as [|n sa IH]; intros i; [by left|].
  simpl. case_bool_decide; [right; lia|].
  destruct (IH (i + 1)) as [->|?]; [by left|right; lia].
Qed.

(** X1.  [IndexOf] returns -1 exactly when the item is not in the array;
    otherwise it returns the index of the first element equal to the item. *)
Theorem IndexOf_first_occurrence (sa : list gostring) (item : gostring) :
  (IndexOf sa item = -1 ↔ item ∉ sa)
  ∧ ∀ i : nat,
      IndexOf sa item = Z.of_nat i
      ↔ sa !! i = Some item ∧ ∀ j, (j < i)%nat → sa !! j ≠ Some item.
Proof.
  unfold IndexOf.
  assert (item ∈ sa → ∃ k, sa !! k = Some item
                           ∧ (∀ j, (j < k)%nat → sa !! j ≠ Some item)
                           ∧ indexFrom 0 sa item = Z.of_nat k) as Hin.
  { intros Hel. destruct (indexFrom_present 0 sa item Hel) as (k & ? & ? & ?).
    exists k. split_and!; [done|done|lia]. }
  split.
  - split; [|apply indexFrom_absent].
    intros Hm Hel. destruct (Hin Hel) as (k & _ & _ & Heq). lia.
  - intros i. split.
    + intros Heq.
      destruct (decide (item ∈ sa)) as [Hel|Hnel].
      * destruct (Hin Hel) as (k & Hk & Hmin & Heq').
        assert (k = i) as -> by lia. done.
      * rewrite indexFrom_absent in Heq by done. lia.
    + intros [Hi Hmin]. by rewrite (indexFrom_first 0 sa item i).
Qed.

End IndexOfLemmas.

(** ** Further properties of the Template Expander *)

Section ExpanderFrame.

Import Regexp.

Implicit Types variables : gmap gostring (list gostring).

Lemma forRange_onto {A : Type} (l : list A)
    (body : A → list gostring → res (list gostring)) (s : list gostring) :
  (∀ k s0, k ∈ l → body k s0 = onto s0 (body k [])) →
  forRange l body s = onto s (forRange l body []).
Proof.
  revert s. induction l as [|k l IH]; intros s Hb.
  - simpl. by rewrite app_nil_r.
  - assert (∀ k' s0, k' ∈ l → body k' s0 = onto s0 (body k' [])) as Hb'
      by (intros k' s0 Hin; apply Hb; by right).
    simpl. rewrite (Hb k s) by left.
    destruct (body k []) as [o| |]; simpl; [|done..].
    rewrite (IH (s ++ o)), (IH o) by done.
    destruct (forRange l body []) as [o'| |]; simpl; [|done..].
    by rewrite app_assoc.
Qed.

(** The expander appends to the list it is given, and what it appends does
    not depend on that list. *)
Lemma ConstructFromTemplate_onto (fuel : nat) (template : gostring) variables
    (acc : list gostring) :
  ConstructFromTemplate fuel template variables acc
  = onto acc (ConstructFromTemplate fuel template variables []).
Proof.
  revert template acc. induction fuel as [|fuel IH]; intros template acc; [done|].
  rewrite !ConstructFromTemplate_S.
  destruct (FindString template); [done|].
  apply forRange_onto. intros k s0 _. apply IH.
Qed.

Lemma forRange_Ret_inv {A : Type} (l : list A)
    (body : A → list gostring → res (list gostring))
    (Q : list gostring → Prop) (s s' : list gostring) :
  (∀ k s0 s1, k ∈ l → body k s0 = Ret s1 → ∃ o, s1 = s0 ++ o ∧ Q o) →
  forRange l body s = Ret s' →
  ∃ os, s' = s ++ concat os ∧ length os = length l ∧ Forall Q os.
Proof.
  revert s. induction l as [|k l IH]; intros s Hb.
  - intros [= <-]. exists []. simpl. by rewrite app_nil_r.
  - simpl. destruct (body k s) as [s1| |] eqn:Hk; [|done..]. simpl.
    destruct (Hb k s s1) as (o & -> & HQ); [left|done|].
    intros Hrest. destruct (IH (s ++ o)) as (os & -> & Hlen & HQs); [|done|].
    { intros k' s0 s2 Hin. apply Hb. by right. }
    exists (o :: os). simpl. rewrite <- app_assoc.
    split_and!; [done|by rewrite Hlen|by constructor].
Qed.

Lemma ConstructFromTemplate_clean (fuel : nat) (template : gostring) variables
    (acc out : list gostring) :
  ConstructFromTemplate fuel template variables acc = Ret out →
  ∃ o, out = acc ++ o ∧ Forall (λ c, FindString c = []) o.
Proof.
  revert template acc out.
  induction fuel as [|fuel IH]; intros template acc out; [done|].
  rewrite ConstructFromTemplate_S.
  destruct (FindString template) as [|c m] eqn:Hf.
  - intros [= <-]. exists [template]. split; [done|by constructor].
  - intros Hret.
    destruct (forRange_Ret_inv _ _ (Forall (λ c, FindString c = [])) _ _
                (λ k s0 s1 _ H, IH _ s0 s1 H) Hret) as (os & -> & _ & HQ).
    exists (concat os). split; [done|]. by apply Forall_concat.
Qed.

(** X2.  [ConstructFromTemplate] only appends to [cmdList]: the commands
    already in the list are kept, in place, and the commands appended are
    those it appends to the empty list. *)
Theorem expander_appends (fuel : nat) (template : gostring) variables
    (cmdList out : list gostring) :
  ConstructFromTemplate fuel template variables cmdList = Ret out
  ↔ ∃ o, ConstructFromTemplate fuel template variables [] = Ret o
         ∧ out = cmdList ++ o.
Proof.
  rewrite ConstructFromTemplate_onto.
  destruct (ConstructFromTemplate fuel template variables []) as [o| |]; simpl.
  - split; [intros [= <-]; eauto|]. by intros (o' & [= <-] & ->).
  - split; [done|]. by intros (o' & ? & _).
  - split; [done|]. by intros (o' & ? & _).
Qed.

(** X3.  Whatever the template and the values, every command the expander
    appends is without a placeholder. *)
Theorem expander_output_has_no_placeholder (fuel : nat) (template : gostring)
    variables (cmdList out : list gostring) :
  ConstructFromTemplate fuel template variables cmdList = Ret out →
  ∃ o, out = cmdList ++ o ∧ Forall (λ c, FindString c = []) o.
Proof. apply ConstructFromTemplate_clean. Qed.


End ExpanderFrame.

Section ExpanderShapes.

Import Regexp.

Implicit Types variables : gmap gostring (list gostring).

Lemma product_zero (l : list nat) : 0%nat ∈ l → product l = 0%nat.
Proof.
  induction l as [|a l IH]; [by intros ?%elem_of_nil|].
  intros [<-|Hin]%elem_of_cons; simpl; [done|]. rewrite IH by done. lia.
Qed.

(** X5.  In a template in which every percent sign begins a placeholder,
    when the values of the placeholders used contain neither a percent
    sign nor a dollar sign and one placeholder used has no value (its list
    is empty or it is not in the mapping), the expander appends no command:
    the template is dropped without an error. *)
Theorem expansion_pruned (template : gostring) variables (name : gostring)
    (cmdList : list gostring) (fuel : nat) :
  percentsBeginPlaceholders template = true →
  (∀ x v, x ∈ usedNames template → v ∈ variables !!! x → plain v) →
  name ∈ usedNames template →
  variables !!! name = [] →
  (length (FindAllString template) < fuel)%nat →
  ConstructFromTemplate fuel template variables cmdList = Ret cmdList.
Proof.
  intros Hp Hplain Hname Hempty Hfuel.
  destruct (tokens_of_template template Hp) as (T & Hwf & <-).
  rewrite usedNames_render in * by done.
  rewrite FindAllString_render, length_fmap in Hfuel by done.
  assert (∀ x v, x ∈ names T → v ∈ variables !!! x → plain v) as Hplain'.
  { intros x v Hx. apply Hplain. by apply elem_of_remove_dups. }
  destruct (expand_tokens variables (length (names T)) T cmdList
              ltac:(lia) Hwf Hplain') as (out & Hout & Hlen & _).
  rewrite product_zero in Hlen.
  - destruct out; [|done]. rewrite app_nil_r in Hout.
    eapply ConstructFromTemplate_mono; [|exact Hout]. lia.
  - apply list_elem_of_fmap. exists name. by rewrite Hempty.
Qed.

Lemma names_all_same (l : list gostring) (x : gostring) :
  remove_dups l = [x] → filter (λ y, y ≠ x) l = [].
Proof.
  intros Hd.
  assert (∀ y, y ∈ l → y = x) as Hall.
  { intros y Hy. apply elem_of_remove_dups in Hy. rewrite Hd in Hy.
    by apply list_elem_of_singleton in Hy. }
  clear Hd. induction l as [|y l IH]; [done|].
  rewrite filter_cons, decide_False.
  - apply IH. intros z Hz. apply Hall. by right.
  - intros Hne. apply Hne, Hall. left.
Qed.

(** X6.  In a template in which every percent sign begins a placeholder and
    that uses one placeholder name, with values without percent and dollar
    signs, the expander appends one command for each value, in the order of
    the values: the template with the value put for every occurrence of the
    placeholder. *)
Theorem expansion_one_placeholder (template : gostring) variables
    (name : gostring) (cmdList : list gostring) (fuel : nat) :
  percentsBeginPlaceholders template = true →
  usedNames template = [name] →
  (∀ v, v ∈ variables !!! name → plain v) →
  (2 ≤ fuel)%nat →
  ConstructFromTemplate fuel template variables cmdList
  = Ret (cmdList
         ++ ((λ v, ReplaceAllString (placeholder name) template v)
               <$> variables !!! name)).
Proof.
  intros Hp Hused Hplain Hfuel.
  destruct (tokens_of_template template Hp) as (T & Hwf & <-).
  rewrite usedNames_render in Hused by done.
  destruct fuel as [|[|fuel]]; [lia..|].
  assert (name ∈ names T) as Hname.
  { apply elem_of_remove_dups. rewrite Hused. left. }
  pose proof (names_valid T name Hwf Hname) as Hvalid.
  pose proof (FindString_render T Hwf) as Hf.
  destruct (names T) as [|x l] eqn:Hnames; [by apply elem_of_nil in Hname|].
  assert (x = name) as ->.
  { assert (x ∈ remove_dups (x :: l)) as Hx by (apply elem_of_remove_dups; left).
    rewrite Hused in Hx. by apply list_elem_of_singleton in Hx. }
  rewrite (ConstructFromTemplate_step _ _ name) by done.
  generalize dependent (variables !!! name). intros vs Hplain. revert cmdList.
  induction vs as [|v vs IH]; intros cmdList.
  - simpl. by rewrite app_nil_r.
  - cbn [forRange]. destruct (Hplain v ltac:(left)) as [Hpc Hdl].
    rewrite ConstructFromTemplate_S.
    rewrite (ReplaceAllString_render name v T) by done.
    rewrite FindString_render by (by apply subst_wf).
    rewrite names_subst, Hnames, (names_all_same _ name Hused).
    cbn [res_bind]. rewrite IH by (intros v' Hv'; apply Hplain; by right).
    rewrite fmap_cons, (ReplaceAllString_render name v T) by done.
    by rewrite <- app_assoc.
Qed.

End ExpanderShapes.

Lemma expander_output_has_no_placeholder_witness :
  let variables : gmap gostring (list gostring) :=
    {[ str "x" := [str "1"; str "2"]; str "y" := [str "a"] ]} in
  let out := [str "c 1 a"; str "c 2 a"] in
  ConstructFromTemplate 3 (str "c %{x} %{y}") variables [] = Ret out
  ∧ ∃ o, out = [] ++ o ∧ Forall (λ c, Regexp.FindString c = []) o.
Proof.
  intros variables out.
  assert (ConstructFromTemplate 3 (str "c %{x} %{y}") variables [] = Ret out)
    as H by (by vm_compute).
  split; [exact H|].
  exact (expander_output_has_no_placeholder 3 _ variables [] out H).
Defined.


Lemma expansion_pruned_witness :
  let variables : gmap gostring (list gostring) :=
    {[ str "x" := [str "1"; str "2"] ]} in
  let template := str "c %{x} %{y}" in
  ConstructFromTemplate 3 template variables [str "kept"] = Ret [str "kept"].
Proof.
  intros variables template.
  apply (expansion_pruned template variables (str "y") [str "kept"] 3).
  - reflexivity.
  - intros x v _. unfold variables.
    destruct (decide (x = str "x")) as [->|Hx].
    + rewrite lookup_total_singleton_eq.
      intros [->|[->|H%elem_of_nil]%elem_of_cons]%elem_of_cons; [| |done];
        split; intros H%list_elem_of_In; vm_compute in H; intuition discriminate.
    + rewrite lookup_total_singleton_ne by done. by intros H%elem_of_nil.
  - vm_compute. right. left.
  - reflexivity.
  - vm_compute. lia.
Defined.

Lemma expansion_one_placeholder_witness :
  let variables : gmap gostring (list gostring) :=
    {[ str "x" := [str "1"; str "2"] ]} in
  let template := str "create --name lb%{x} --description lb%{x}" in
  ConstructFromTemplate 2 template variables []
  = Ret ([] ++ ((λ v, Regexp.ReplaceAllString (Regexp.placeholder (str "x"))
                        template v)
                  <$> variables !!! str "x")).
Proof.
  intros variables template.
  apply (expansion_one_placeholder template variables (str "x") [] 2).
  - reflexivity.
  - reflexivity.
  - unfold variables. rewrite lookup_total_singleton_eq.
    intros v [->|[->|H%elem_of_nil]%elem_of_cons]%elem_of_cons; [| |done];
      split; intros H%list_elem_of_In; vm_compute in H; intuition discriminate.
  - lia.
Defined.

(** ** Further properties of the Value-List Parser *)

Section ParserValues.

Import Strconv.

Lemma Join_Split (s : gostring) (sep : ascii) :
  Strings.Join (Strings.Split s sep) [sep] = s.
Proof.
  induction s as [|c r IH]; [done|]. cbn [Strings.Split].
  destruct (Split_nonempty r sep) as (h & t & Hs). rewrite Hs in *.
  destruct (Ascii.eqb_spec c sep) as [->|_].
  - change (Strings.Join ([] :: h :: t) [sep])
      with ([] ++ [sep] ++ Strings.Join (h :: t) [sep]).
    by rewrite IH.
  - destruct t as [|h' t]; simpl in *; by rewrite IH.
Qed.

Lemma Split_no_sep_in (s : gostring) (sep : ascii) :
  Forall (λ n, sep ∉ n) (Strings.Split s sep).
Proof.
  induction s as [|c r IH]; [repeat constructor; apply not_elem_of_nil|].
  cbn [Strings.Split]. destruct (Split_nonempty r sep) as (h & t & Hs).
  rewrite Hs in *. apply Forall_cons in IH as [Hh Ht].
  destruct (Ascii.eqb_spec c sep) as [->|Hne].
  - constructor; [apply not_elem_of_nil|by constructor].
  - constructor; [|done]. by apply not_elem_of_cons.
Qed.

Lemma Split_chars (s : gostring) (sep c : ascii) (n : gostring) :
  n ∈ Strings.Split s sep → c ∈ n → c ∈ s.
Proof.
  revert n. induction s as [|a r IH]; intros n.
  - simpl. intros ->%list_elem_of_singleton. done.
  - cbn [Strings.Split]. destruct (Split_nonempty r sep) as (h & t & Hs).
    rewrite Hs in *. destruct (Ascii.eqb a sep).
    + intros [->|Hn]%elem_of_cons Hc; [by apply elem_of_nil in Hc|].
      right. by apply (IH n).
    + intros [->|Hn]%elem_of_cons Hc.
      * apply elem_of_cons in Hc as [->|Hc]; [left|right].
        apply (IH h); [left|done].
      * right. apply (IH n); [by right|done].
Qed.

Lemma parseTokens_literals (fuel : nat) (ls rlt : list gostring) :
  Forall (λ n, rangePattern_MatchString n = false) ls →
  parseTokens fuel ls rlt = Ret (rlt ++ ls).
Proof.
  intros Hls. revert rlt. induction Hls as [|n ls Hn _ IH]; intros rlt.
  - simpl. by rewrite app_nil_r.
  - simpl. rewrite Hn, IH. by rewrite <- app_assoc.
Qed.

(** Every result of the parser is the values of the tokens, in order. *)
Lemma ParseVarValues_closed_form (fuel : nat) (v : gostring)
    (out : list gostring) :
  ParseVarValues fuel v = Ret out →
  out = concat (tokenValues <$> Strings.Split v ",").
Proof.
  unfold ParseVarValues. intros Hret.
  pose proof (parseTokens_Ret_bounded _ _ _ _ Hret) as Hbound.
  destruct (parseTokens_values _ Hbound) as [fuel0 Hfuel0].
  pose proof (parseTokens_mono fuel (fuel `max` fuel0) _ _ _
                ltac:(lia) Hret) as Hret'.
  rewrite Hfuel0 in Hret' by lia. by injection Hret' as <-.
Qed.

(** The decimal numerals of the Standard Library, as [Sprintf_d] prints
    them. *)
Lemma uint_digits (d : Decimal.uint) :
  forallb isDigit (list_ascii_of_string (NilEmpty.string_of_uint d)) = true.
Proof. induction d; simpl; done. Qed.

Lemma uint_value_acc (d : Decimal.uint) (acc : positive) :
  decimalFrom (Z.pos acc) (list_ascii_of_string (NilEmpty.string_of_uint d))
  = Z.pos (Pos.of_uint_acc d acc).
Proof.
  revert acc. unfold decimalFrom.
  induction d as [|d IH|d IH|d IH|d IH|d IH|d IH|d IH|d IH|d IH|d IH];
    intros acc; [done|..];
    cbn [NilEmpty.string_of_uint list_ascii_of_string fold_left Pos.of_uint_acc];
    rewrite <- IH; f_equal; vm_compute (Z.of_nat (nat_of_ascii _)); lia.
Qed.

Lemma uint_value (d : Decimal.uint) :
  decimalValue (list_ascii_of_string (NilEmpty.string_of_uint d))
  = Z.of_N (Pos.of_uint d).
Proof.
  unfold decimalValue.
  induction d as [|d IH|d IH|d IH|d IH|d IH|d IH|d IH|d IH|d IH|d IH];
    [done|exact IH|..];
    cbn [NilEmpty.string_of_uint list_ascii_of_string Pos.of_uint Z.of_N];
    rewrite <- uint_value_acc; reflexivity.
Qed.

(** A number that is not negative is printed as a non-empty string of
    digits that denotes it. *)
Lemma Sprintf_d_nonneg (i : Z) :
  0 ≤ i →
  Fmt.Sprintf_d i ≠ []
  ∧ forallb isDigit (Fmt.Sprintf_d i) = true
  ∧ decimalValue (Fmt.Sprintf_d i) = i.
Proof.
  intros Hi. unfold Fmt.Sprintf_d. destruct i as [|p|p]; [done| |lia].
  cbn [Z.to_int NilZero.string_of_int].
  pose proof (DecimalPos.Unsigned.of_to p) as Hof.
  assert (NilZero.string_of_uint (Pos.to_uint p)
          = NilEmpty.string_of_uint (Pos.to_uint p)) as ->.
  { destruct (Pos.to_uint p); done. }
  split_and!.
  - destruct (Pos.to_uint p); done.
  - apply uint_digits.
  - by rewrite uint_value, Hof.
Qed.

Lemma not_digit_not_in_number (c : ascii) (i : Z) :
  isDigit c = false → 0 ≤ i → c ∉ Fmt.Sprintf_d i.
Proof.
  intros Hc Hi. apply (forallb_not_elem isDigit); [done|].
  by apply Sprintf_d_nonneg.
Qed.

(** X7.  On a value list without a token of the range shape the parser
    needs no loop over numbers: for every fuel it returns the tokens
    between the commas as they are, empty ones included.  The result is
    never empty, no value contains a comma, and the values joined by
    commas are the input. *)
Theorem parser_literal_tokens (fuel : nat) (v : gostring) :
  Forall (λ n, rangePattern_MatchString n = false) (Strings.Split v ",") →
  ∃ out, ParseVarValues fuel v = Ret out
         ∧ out ≠ []
         ∧ Forall (λ n, "," ∉ n) out
         ∧ Strings.Join out [","] = v.
Proof.
  intros Hlit. exists (Strings.Split v ",").
  unfold ParseVarValues. rewrite parseTokens_literals by done.
  split_and!; [done| |apply Split_no_sep_in|apply Join_Split].
  by destruct (Split_nonempty v ",") as (h & t & ->).
Qed.

(** X8.  For a token [a-b] whose upper bound is below the largest int, the
    parser returns decimal numerals, not empty and of digits only, that
    [strconv.Atoi] reads back without error as the integers from [a] to
    [b], in this order; there is none when [b] is less than [a]. *)
Theorem parser_range_values (a b : gostring) :
  a ≠ [] → b ≠ [] →
  forallb isDigit a = true → forallb isDigit b = true →
  decimalValue b < maxInt →
  ∃ out,
    (∀ fuel, (Z.to_nat (decimalValue b + 1) < fuel)%nat →
             ParseVarValues fuel (a ++ "-" :: b) = Ret out)
    ∧ Atoi <$> out
      = (λ i, (i, None)) <$> seqZ (decimalValue a)
                                  (decimalValue b - decimalValue a + 1)
    ∧ Forall (λ v, v ≠ [] ∧ forallb isDigit v = true) out
    ∧ (decimalValue b < decimalValue a → out = []).
Proof.
  intros Ha Hb Hda Hdb Hub.
  pose proof (decimalValue_nonneg a Hda) as Hna.
  pose proof (decimalValue_nonneg b Hdb) as Hnb.
  set (va := decimalValue a) in *. set (vb := decimalValue b) in *.
  exists (Fmt.Sprintf_d <$> seqZ va (vb - va + 1)).
  assert (∀ i, i ∈ seqZ va (vb - va + 1) → 0 ≤ i ≤ maxInt) as Hrange.
  { intros i Hi%elem_of_seqZ. lia. }
  split_and!.
  - intros fuel Hfuel. unfold ParseVarValues.
    rewrite Split_range_token, parseTokens_range by done.
    rewrite (Atoi_digits a), (Atoi_digits b) by done. fold va vb.
    rewrite (decide_True (P := vb ≤ maxInt)) by lia. cbn [fst].
    destruct (decide (va ≤ maxInt)) as [Hok|Hov]; cbn [fst].
    + rewrite rangeLoop_ascending by (unfold minInt; lia). done.
    + destruct fuel as [|fuel]; [lia|]. cbn [rangeLoop].
      destruct (Z.leb_spec maxInt vb); [lia|].
      by rewrite seqZ_nil by lia.
  - rewrite <- list_fmap_compose. apply list_fmap_ext.
    intros k i Hi%list_elem_of_lookup_2. cbn.
    destruct (Sprintf_d_nonneg i) as (Hne & Hd & Hv); [by apply Hrange|].
    rewrite Atoi_digits, Hv by done.
    rewrite decide_True; [done|by apply Hrange].
  - apply Forall_fmap, Forall_forall. intros i Hi. cbn.
    destruct (Sprintf_d_nonneg i) as (Hne & Hd & _); [by apply Hrange|done].
  - intros Hinv. by rewrite seqZ_nil by lia.
Qed.

(** X9.  When the value list contains neither a percent sign nor a dollar
    sign, no value the parser returns contains one: the values can be put
    into a template without bringing in a placeholder or a group
    reference. *)
Theorem parser_values_plain (fuel : nat) (v : gostring) (out : list gostring) :
  ParseVarValues fuel v = Ret out → plain v → Forall plain out.
Proof.
  intros Hret [Hp Hd].
  rewrite (ParseVarValues_closed_form fuel v out Hret).
  apply Forall_concat, Forall_fmap, Forall_forall. intros n Hn. cbn.
  unfold tokenValues. destruct (rangePattern_MatchString n) eqn:Hm.
  - destruct (rangePattern_shape n Hm) as (a & b & -> & Hs & Ha & Hb & Hda & Hdb).
    apply Forall_fmap, Forall_forall. intros i Hi%elem_of_seqZ. cbn.
    assert (0 ≤ i) as Hi0.
    { unfold lowerBound in Hi. rewrite Hs in Hi. cbn [fst] in Hi.
      pose proof (decimalValue_nonneg a Hda). lia. }
    split; by apply not_digit_not_in_number.
  - constructor; [|constructor].
    split; intros Hc; [apply Hp|apply Hd]; by eapply Split_chars.
Qed.

End ParserValues.

Lemma parser_literal_tokens_witness :
  ∃ out, ParseVarValues 0 (str "a,,b-c,1-") = Ret out
         ∧ out ≠ []
         ∧ Forall (λ n, "," ∉ n) out
         ∧ Strings.Join out [","] = str "a,,b-c,1-".
Proof.
  apply (parser_literal_tokens 0 (str "a,,b-c,1-")).
  repeat constructor.
Defined.

Lemma parser_range_values_witness :
  let a := str "08" in
  let b := str "11" in
  ∃ out,
    (∀ fuel, (Z.to_nat (decimalValue b + 1) < fuel)%nat →
             ParseVarValues fuel (a ++ "-" :: b) = Ret out)
    ∧ Strconv.Atoi <$> out
      = (λ i, (i, None)) <$> seqZ (decimalValue a)
                                  (decimalValue b - decimalValue a + 1)
    ∧ Forall (λ v, v ≠ [] ∧ forallb isDigit v = true) out
    ∧ (decimalValue b < decimalValue a → out = []).
Proof.
  intros a b.
  apply (parser_range_values a b); [done|done|reflexivity|reflexivity|reflexivity].
Defined.

Lemma parser_values_plain_witness :
  let out := [str "1"; str "2"; str "x"] in
  ParseVarValues 3 (str "1-2,x") = Ret out ∧ plain (str "1-2,x")
  ∧ Forall plain out.
Proof.
  intros out.
  assert (ParseVarValues 3 (str "1-2,x") = Ret out) as H1 by (by vm_compute).
  assert (plain (str "1-2,x")) as H2.
  { split; intros H%list_elem_of_In; vm_compute in H; intuition discriminate. }
  split; [exact H1|]. split; [exact H2|].
  exact (parser_values_plain 3 (str "1-2,x") out H1 H2).
Defined.

(** ** Further properties of the Poller and the Orchestrator *)

Section PollingLemmas.

Context {E : Env}.

Lemma RunCommand_view (cmd : gostring) (w : World) :
  ∃ cr, RunCommand cmd w =
          (Ret cr, {| cmdResults := cmdResults w;
                      spawned := spawned w ++ [cmdArgsOf cmd];
                      clockReads := S (S (clockReads w)) |})
        ∧ (ExitCode cr, Err cr, decodeStatus (Out cr))
          = checkView (process (length (spawned w)) (cmdArgsOf cmd)).
Proof.
  destruct (RunCommand_spec cmd w) as (cr & Hrun & _ & _ & Hout).
  exists cr. split; [done|]. unfold checkView.
  destruct (process _ _); destruct Hout as (-> & -> & ->); done.
Qed.

(** The polling loop when the first [k] checks are pending and the next is
    not. *)
Lemma pollLoop_stops (k fuel : nat) (checkCmd : gostring) (rlt : CommandResult)
    (w : World) :
  (∀ j, (j < k)%nat →
        pending (process (length (spawned w) + j) (cmdArgsOf checkCmd)) = true) →
  pending (process (length (spawned w) + k) (cmdArgsOf checkCmd)) = false →
  (k < fuel)%nat →
  fst (pollLoop fuel checkCmd rlt w)
  = Ret (set_Checked
           (checkedText (Command rlt)
              (process (length (spawned w) + k) (cmdArgsOf checkCmd))) rlt)
  ∧ cmdResults (snd (pollLoop fuel checkCmd rlt w)) = cmdResults w
  ∧ spawned (snd (pollLoop fuel checkCmd rlt w))
    = spawned w ++ replicate (S k) (cmdArgsOf checkCmd)
  ∧ clockReads (snd (pollLoop fuel checkCmd rlt w))
    = (clockReads w + 2 * S k)%nat.
Proof.
  revert fuel w. induction k as [|k IH]; intros fuel w Hpend Hstop Hfuel;
    (destruct fuel as [|fuel]; [lia|]);
    destruct (RunCommand_view checkCmd w) as (cr & Hrun & Hview);
    rewrite pollLoop_S, (bind_Ret _ _ _ _ _ Hrun).
  - rewrite Nat.add_0_r in Hstop. unfold pending, checkedText in *.
    rewrite Nat.add_0_r. rewrite <- Hview in *.
    destruct (ExitCode cr =? 0); cbn [negb andb] in *.
    + cbv zeta. rewrite Hstop. cbn. split_and!; (done || lia).
    + cbn. split_and!; (done || lia).
  - pose proof (Hpend 0%nat ltac:(lia)) as H0. rewrite Nat.add_0_r in H0.
    unfold pending in H0. rewrite <- Hview in H0.
    apply andb_prop in H0 as [Hcode Hpre]. rewrite Hcode. cbn [negb].
    cbv zeta. rewrite Hpre.
    set (w1 := {| cmdResults := cmdResults w;
                  spawned := spawned w ++ [cmdArgsOf checkCmd];
                  clockReads := S (S (clockReads w)) |}).
    assert (∀ j, (length (spawned w1) + j = length (spawned w) + S j)%nat) as Hidx.
    { intros j. unfold w1. cbn. rewrite length_app. cbn. lia. }
    destruct (IH fuel w1) as (Hret & Hres & Hsp & Hclk).
    + intros j Hj. rewrite Hidx. apply Hpend. lia.
    + by rewrite Hidx.
    + lia.
    + rewrite Hidx in Hret. rewrite Hret, Hres, Hsp, Hclk. unfold w1. cbn.
      rewrite <- app_assoc. split_and!; (done || lia).
Qed.

(** The polling loop when every check is pending: it uses up any fuel. *)
Lemma pollLoop_pending (fuel : nat) (checkCmd : gostring) (rlt : CommandResult)
    (w : World) :
  (∀ j, pending (process (length (spawned w) + j) (cmdArgsOf checkCmd)) = true) →
  fst (pollLoop fuel checkCmd rlt w) = Timeout
  ∧ spawned (snd (pollLoop fuel checkCmd rlt w))
    = spawned w ++ replicate fuel (cmdArgsOf checkCmd).
Proof.
  revert w. induction fuel as [|fuel IH]; intros w Hpend.
  - cbn. by rewrite app_nil_r.
  - destruct (RunCommand_view checkCmd w) as (cr & Hrun & Hview).
    rewrite pollLoop_S, (bind_Ret _ _ _ _ _ Hrun).
    pose proof (Hpend 0%nat) as H0. rewrite Nat.add_0_r in H0.
    unfold pending in H0. rewrite <- Hview in H0.
    apply andb_prop in H0 as [Hcode Hpre]. rewrite Hcode. cbn [negb].
    cbv zeta. rewrite Hpre.
    set (w1 := {| cmdResults := cmdResults w;
                  spawned := spawned w ++ [cmdArgsOf checkCmd];
                  clockReads := S (S (clockReads w)) |}).
    destruct (IH w1) as (Hret & Hsp).
    + intros j. replace (length (spawned w1) + j)%nat
        with (length (spawned w) + S j)%nat; [apply Hpend|].
      unfold w1. cbn. rewrite length_app. cbn. lia.
    + rewrite Hret, Hsp. unfold w1. cbn. by rewrite <- app_assoc.
Qed.

End PollingLemmas.

Section PollingProperties.

Context {E : Env}.

(** X10.  On a create or an update the Poller runs
    [neutron lbaas-<resource type>-show <id>] again and again and stops
    at the first run that fails or reports a status that
    does not begin with [PENDING_]: after [k] pending checks it has spawned
    [k + 1] processes, [Checked] is the failure text or ["<id>: <status>"]
    of the last one, and [CheckedDuration] is the time from its first
    reading of the clock to its last plus the execution duration. *)
Theorem poller_stops_at_first_settled_check (k fuel : nat) (rlt : CommandResult)
    (w : World) (args1 resourceType operation : gostring) :
  operationKind (Command rlt) = Ret (args1, resourceType, operation) →
  operation = str "create" ∨ operation = str "update" →
  (∀ j, (j < k)%nat →
        pending (process (length (spawned w) + j)
                   (cmdArgsOf (str "neutron lbaas-" ++ resourceType
                                 ++ str "-show " ++ sprint_id (Out rlt))))
        = true) →
  pending (process (length (spawned w) + k)
             (cmdArgsOf (str "neutron lbaas-" ++ resourceType
                           ++ str "-show " ++ sprint_id (Out rlt))))
  = false →
  (k < fuel)%nat →
  ∃ rlt' w',
    CheckExecution fuel rlt w = (Ret rlt', w')
    ∧ Checked rlt'
      = checkedText (Command rlt)
          (process (length (spawned w) + k)
             (cmdArgsOf (str "neutron lbaas-" ++ resourceType
                           ++ str "-show " ++ sprint_id (Out rlt))))
    ∧ CheckedDuration rlt'
      = wrapInt (Time_Sub (clock (clockReads w + 2 * k + 3)) (clock (clockReads w))
                 + Duration rlt)
    ∧ spawned w'
      = spawned w
        ++ replicate (S k)
             (cmdArgsOf (str "neutron lbaas-" ++ resourceType
                           ++ str "-show " ++ sprint_id (Out rlt)))
    ∧ cmdResults w' = cmdResults w.
Proof.
  intros Hk Hop Hpend Hstop Hfuel.
  set (checkCmd := str "neutron lbaas-" ++ resourceType ++ str "-show "
                     ++ sprint_id (Out rlt)) in *.
  unfold CheckExecution, bind, lift, time_Now. rewrite Hk. cbv beta iota.
  assert (bool_decide (operation = str "create")
          || bool_decide (operation = str "update") = true) as ->.
  { destruct Hop as [->| ->]; [done|]. apply orb_true_r. }
  set (w1 := {| cmdResults := cmdResults w; spawned := spawned w;
                clockReads := S (clockReads w) |}).
  fold checkCmd.
  destruct (pollLoop_stops k fuel checkCmd rlt w1 Hpend Hstop Hfuel)
    as (Hret & Hres & Hsp & Hclk).
  destruct (pollLoop fuel checkCmd rlt w1) as [r w2]. cbn in Hret, Hres, Hsp, Hclk.
  subst r. eexists _, _. split; [reflexivity|]. cbn.
  split_and!; [done| |done|done].
  rewrite Hclk.
  by replace (S (clockReads w + S (k + S (k + 0))))
    with (clockReads w + (k + (k + 0)) + 3)%nat by lia.
Qed.

(** X11.  The Poller has no bound and no timeout: when every check of a
    create or an update succeeds with a pending status it never returns,
    and it has spawned as many check processes as it was given steps. *)
Theorem poller_never_gives_up (fuel : nat) (rlt : CommandResult) (w : World)
    (args1 resourceType operation : gostring) :
  operationKind (Command rlt) = Ret (args1, resourceType, operation) →
  operation = str "create" ∨ operation = str "update" →
  (∀ j, pending (process (length (spawned w) + j)
                   (cmdArgsOf (str "neutron lbaas-" ++ resourceType
                                 ++ str "-show " ++ sprint_id (Out rlt))))
        = true) →
  fst (CheckExecution fuel rlt w) = Timeout
  ∧ spawned (snd (CheckExecution fuel rlt w))
    = spawned w
      ++ replicate fuel
           (cmdArgsOf (str "neutron lbaas-" ++ resourceType
                         ++ str "-show " ++ sprint_id (Out rlt))).
Proof.
  intros Hk Hop Hpend.
  set (checkCmd := str "neutron lbaas-" ++ resourceType ++ str "-show "
                     ++ sprint_id (Out rlt)) in *.
  unfold CheckExecution, bind, lift, time_Now. rewrite Hk. cbv beta iota.
  assert (bool_decide (operation = str "create")
          || bool_decide (operation = str "update") = true) as ->.
  { destruct Hop as [->| ->]; [done|]. apply orb_true_r. }
  set (w1 := {| cmdResults := cmdResults w; spawned := spawned w;
                clockReads := S (clockReads w) |}).
  fold checkCmd.
  destruct (pollLoop_pending fuel checkCmd rlt w1 Hpend) as (Hret & Hsp).
  destruct (pollLoop fuel checkCmd rlt w1) as [r w2]. cbn in Hret, Hsp.
  by subst r.
Qed.

Lemma operationKind_no_verb (n h : gostring) (t : list gostring) :
  Strings.Split n " " = h :: t → "-" ∉ h →
  ∃ msg, operationKind (cmdPrefix ++ n) = Panic msg.
Proof.
  intros Hs Hh. unfold operationKind.
  destruct (cmdArgsOf_prefix n) as (h' & t' & Hs' & Hargs).
  rewrite Hs in Hs'. injection Hs' as <- <-.
  unfold cmdArgsOf in Hargs.
  assert (Strings.Split (cmdPrefix ++ n) " "
          = str "neutron" :: (str "lbaas-" ++ h) :: t) as ->.
  { apply (app_inv_tail [str "--format"; str "json"]). by rewrite Hargs. }
  cbn [index lookup list_lookup res_bind].
  change (str "lbaas-" ++ h) with (str "lbaas" ++ "-" :: h).
  rewrite Split_app_sep.
  - rewrite (Split_no_sep h "-") by done. cbn. eauto.
  - intros H%list_elem_of_In. vm_compute in H. intuition discriminate.
Qed.

(** X12.  A command whose first word has no hyphen, so that the second
    word of the full command has fewer than three parts, stops the whole
    batch when its process exits with status 0: its record is appended,
    then the Poller panics on an index out of range, and no later command
    is run. *)
Theorem orchestrator_panics_on_short_command (fuel : nat)
    (n h : gostring) (t cmdList : list gostring) (w : World)
    (stdout stderr : gostring) :
  Strings.Split n " " = h :: t → "-" ∉ h →
  process (length (spawned w)) (cmdArgsOf (cmdPrefix ++ n))
  = WaitOk stdout stderr →
  ∃ msg cr,
    RunCmds fuel (n :: cmdList) w
    = (Panic msg,
       {| cmdResults := cmdResults w ++ [cr];
          spawned := spawned w ++ [cmdArgsOf (cmdPrefix ++ n)];
          clockReads := S (S (clockReads w)) |})
    ∧ Command cr = cmdPrefix ++ n ∧ ExitCode cr = 0.
Proof.
  intros Hs Hh Hproc.
  destruct (operationKind_no_verb n h t Hs Hh) as [msg Hmsg].
  destruct (RunCommand_spec (cmdPrefix ++ n) w) as (cr & Hrun & Hfresh & _ & Hout).
  rewrite Hproc in Hout. destruct Hout as (_ & Hcode & _).
  destruct Hfresh as (_ & Hcmd & _).
  exists msg, cr. split; [|done].
  cbn [RunCmds]. rewrite (bind_Ret _ _ _ _ _ Hrun).
  unfold bind at 1, appendResult at 1. rewrite Hcode. cbn [Z.eqb negb].
  unfold bind, CheckExecution, bind, lift. rewrite Hcmd, Hmsg. done.
Qed.



End PollingProperties.

Lemma poller_stops_at_first_settled_check_witness :
  let E := statusEnv (settlesAfter 2) in
  let rlt := {| Seq := 0; Command := str "neutron lbaas-loadbalancer-create lb1";
                Out := [(str "id", str "42")]; Err := []; ExitCode := 0;
                Duration := 1000; Checked := []; CheckedDuration := 0 |} in
  ∃ rlt' w',
    CheckExecution 3 rlt initWorld = (Ret rlt', w')
    ∧ Checked rlt' = str "42: ACTIVE"
    ∧ CheckedDuration rlt' = 8000
    ∧ spawned w'
      = replicate 3 (cmdArgsOf (str "neutron lbaas-loadbalancer-show 42"))
    ∧ cmdResults w' = [].
Proof.
  intros E rlt.
  apply (poller_stops_at_first_settled_check (E := E) 2 3 rlt initWorld
           (str "lbaas-loadbalancer-create") (str "loadbalancer") (str "create")).
  - reflexivity.
  - by left.
  - intros [|[|j]] Hj; [reflexivity|reflexivity|lia].
  - reflexivity.
  - lia.
Defined.

Lemma poller_never_gives_up_witness :
  let E := statusEnv alwaysPending in
  let rlt := {| Seq := 0; Command := str "neutron lbaas-listener-update l1";
                Out := [(str "id", str "42")]; Err := []; ExitCode := 0;
                Duration := 1000; Checked := []; CheckedDuration := 0 |} in
  fst (CheckExecution 5 rlt initWorld) = Timeout
  ∧ spawned (snd (CheckExecution 5 rlt initWorld))
    = replicate 5 (cmdArgsOf (str "neutron lbaas-listener-show 42")).
Proof.
  intros E rlt.
  apply (poller_never_gives_up (E := E) 5 rlt initWorld
           (str "lbaas-listener-update") (str "listener") (str "update")).
  - reflexivity.
  - by right.
  - intros j. reflexivity.
Defined.

Lemma orchestrator_panics_on_short_command_witness :
  let E := exampleEnv allSucceed in
  ∃ msg cr,
    RunCmds 1 [str "help"; str "loadbalancer-list"] initWorld
    = (Panic msg,
       {| cmdResults := [cr];
          spawned := [cmdArgsOf (cmdPrefix ++ str "help")];
          clockReads := 2 |})
    ∧ Command cr = cmdPrefix ++ str "help" ∧ ExitCode cr = 0.
Proof.
  intros E.
  apply (orchestrator_panics_on_short_command (E := E) 1 (str "help") (str "help")
           [] [str "loadbalancer-list"] initWorld (str "{...}") []).
  - reflexivity.
  - intros H%list_elem_of_In. vm_compute in H. intuition discriminate.
  - reflexivity.
Defined.


Section ArgumentLemmas.


Lemma IndexOf_absent (sa : list gostring) (item : gostring) :
  item ∉ sa → IndexOf sa item = -1.
Proof. apply indexFrom_absent. Qed.



End ArgumentLemmas.

Section RegexpJoin.

Import Regexp.








End RegexpJoin.

Section VariableLemmas.

Implicit Types variables : gmap gostring (list gostring).






(** *** The definitions after [++] *)

Lemma defineVars_cons (fuel : nat) (n k : gostring) (keys : list gostring)
    variables :
  defineVars fuel n (k :: keys) variables
  = if defines n k then
      let! v := ParseVarValues fuel (valueSpec n) in
      defineVars fuel n keys (<[k := variables !!! k ++ v]> variables)
    else defineVars fuel n keys variables.
Proof.
  unfold defineVars, defines, valueSpec. cbn [forRange].
  destruct (Strings.HasPrefix n (k ++ [":"])); [|done].
  by destruct (ParseVarValues fuel _).
Qed.

Lemma defineVars_Ret (fuel : nat) (n : gostring) (keys : list gostring)
    variables (v : list gostring) :
  ParseVarValues fuel (valueSpec n) = Ret v →
  defineVars fuel n keys variables
  = Ret (foldl (λ variables k,
                  if defines n k then <[k := variables !!! k ++ v]> variables
                  else variables)
               variables keys).
Proof.
  intros Hv. revert variables.
  induction keys as [|k keys IH]; intros variables; [done|].
  rewrite defineVars_cons. cbn [foldl]. destruct (defines n k).
  - rewrite Hv. cbn [res_bind]. apply IH.
  - apply IH.
Qed.

Lemma defineVars_none (fuel : nat) (n : gostring) (keys : list gostring)
    variables :
  Forall (λ k, defines n k = false) keys →
  defineVars fuel n keys variables = Ret variables.
Proof.
  induction 1 as [|k keys Hk _ IH]; [done|].
  by rewrite defineVars_cons, Hk.
Qed.

Lemma defineVars_fails (fuel : nat) (n : gostring) (keys : list gostring)
    variables :
  (∀ v, ParseVarValues fuel (valueSpec n) ≠ Ret v) →
  Exists (λ k, defines n k = true) keys →
  defineVars fuel n keys variables
  = let! _ := ParseVarValues fuel (valueSpec n) in Ret variables.
Proof.
  intros Hv. induction keys as [|k keys IH]; intros Hex.
  - by apply Exists_nil in Hex.
  - rewrite defineVars_cons. destruct (defines n k) eqn:Hk.
    + destruct (ParseVarValues fuel (valueSpec n)) as [v| |] eqn:Hp;
        [by destruct (Hv v)|done|done].
    + apply IH. apply Exists_cons in Hex as [Hex|Hex]; [|done].
      congruence.
Qed.

Lemma define_fold_lookup (n : gostring) (v : list gostring)
    (keys : list gostring) variables (k : gostring) :
  NoDup keys →
  foldl (λ variables k,
           if defines n k then <[k := variables !!! k ++ v]> variables
           else variables)
        variables keys !! k
  = if bool_decide (k ∈ keys) && defines n k
    then Some (variables !!! k ++ v) else variables !! k.
Proof.
  intros Hnd. revert variables.
  induction Hnd as [|k0 keys Hk0 _ IH]; intros variables; [done|].
  cbn [foldl]. rewrite IH.
  destruct (decide (k = k0)) as [->|Hne].
  - rewrite (bool_decide_eq_false_2 _ Hk0), (bool_decide_eq_true_2 (k0 ∈ k0 :: keys))
      by by left.
    cbn [andb]. destruct (defines n k0); [|done].
    by rewrite lookup_insert_eq.
  - assert (bool_decide (k ∈ k0 :: keys) = bool_decide (k ∈ keys)) as ->.
    { apply bool_decide_ext. rewrite elem_of_cons. tauto. }
    destruct (defines n k0); [|done].
    by rewrite lookup_insert_ne, lookup_total_insert_ne.
Qed.





End VariableLemmas.

Section ArgumentProperties.

Implicit Types variables : gmap gostring (list gostring).


Lemma definedValues_nil (k : gostring) : definedValues k [] = [].
Proof. done. Qed.








(** X21.  One definition argument changes the values of at most the names
    it begins with, followed by a colon, and appends to each the values of
    the text after its first colon; the outcome does not depend on the
    order in which the names of the mapping are visited, which Go leaves
    open. *)
Theorem definition_order_irrelevant (fuel : nat) (n : gostring)
    (keys keys' : list gostring) variables :
  NoDup keys → keys ≡ₚ keys' →
  defineVars fuel n keys variables = defineVars fuel n keys' variables
  ∧ ∀ variables',
      defineVars fuel n keys variables = Ret variables' →
      ∀ k, variables' !! k
           = if bool_decide (k ∈ keys) && defines n k
             then Some (variables !!! k ++ specValues (valueSpec n))
             else variables !! k.
Proof.
  intros Hnd Hperm.
  assert (NoDup keys') as Hnd' by by rewrite <- Hperm.
  destruct (decide (Exists (λ k, defines n k = true) keys)) as [Hex|Hex].
  - assert (Exists (λ k, defines n k = true) keys') as Hex'
      by by rewrite <- Hperm.
    destruct (ParseVarValues fuel (valueSpec n)) as [v| |] eqn:Hv.
    + rewrite !(defineVars_Ret _ _ _ _ v Hv). split.
      * f_equal. apply map_eq. intros k. rewrite !define_fold_lookup by done.
        assert (bool_decide (k ∈ keys) = bool_decide (k ∈ keys')) as ->; [|done].
        apply bool_decide_ext. by rewrite Hperm.
      * intros variables' [= <-] k. rewrite define_fold_lookup by done.
        by rewrite (ParseVarValues_closed_form _ _ _ Hv).
    + rewrite !defineVars_fails; try done; rewrite Hv; try done.
    + rewrite !defineVars_fails; try done; rewrite Hv; try done.
  - assert (Forall (λ k, defines n k = false) keys) as Hall.
    { apply Forall_forall. intros k Hk. apply not_true_is_false. intros Hd.
      apply Hex, Exists_exists. by exists k. }
    assert (Forall (λ k, defines n k = false) keys') as Hall'
      by by rewrite <- Hperm.
    rewrite !defineVars_none by done. split; [done|].
    intros variables' [= <-] k.
    destruct (decide (k ∈ keys)) as [Hin|Hin].
    + rewrite Forall_forall in Hall. by rewrite (Hall k Hin), andb_false_r.
    + by rewrite (bool_decide_eq_false_2 _ Hin).
Qed.

End ArgumentProperties.

Section ArgumentComposition.

Implicit Types variables : gmap gostring (list gostring).












End ArgumentComposition.






Lemma definition_order_irrelevant_witness :
  let variables : gmap gostring (list gostring) :=
    {[ str "x" := [str "0"]; str "y" := [] ]} in
  let keys := [str "x"; str "y"] in
  let keys' := [str "y"; str "x"] in
  let n := str "x:1-2,c" in
  defineVars 3 n keys variables = defineVars 3 n keys' variables
  ∧ ∀ variables',
      defineVars 3 n keys variables = Ret variables' →
      ∀ k, variables' !! k
           = if bool_decide (k ∈ keys) && defines n k
             then Some (variables !!! k ++ specValues (valueSpec n))
             else variables !! k.
Proof.
  intros variables keys keys' n.
  apply (definition_order_irrelevant 3 n keys keys' variables).
  - apply NoDup_cons. split; [not_in_list|]. apply NoDup_singleton.
  - apply Permutation_swap.
Defined.




Section MainLemmas.

Lemma HasPrefix_nil (s : gostring) : Strings.HasPrefix s [] = true.
Proof. by destruct s. Qed.

Lemma HasPrefix_app_sep (a b sub : gostring) (sep : ascii) :
  sep ∉ sub → sub ≠ [] →
  Strings.HasPrefix (a ++ sep :: b) sub = Strings.HasPrefix a sub.
Proof.
  revert sub. induction a as [|c a IH]; intros [|p sub] Hsep Hne; try done.
  - cbn. apply andb_false_intro1. apply Ascii.eqb_neq. intros ->.
    apply Hsep. by left.
  - cbn [app Strings.HasPrefix]. destruct sub as [|p' sub].
    + by rewrite !HasPrefix_nil.
    + rewrite IH; [done| |done]. intros H. apply Hsep. by right.
Qed.

Lemma Contains_nil (sub : gostring) : sub ≠ [] → Contains [] sub = false.
Proof. by destruct sub. Qed.

Lemma Contains_app_sep (a b sub : gostring) (sep : ascii) :
  sep ∉ sub → sub ≠ [] →
  Contains (a ++ sep :: b) sub = Contains a sub || Contains b sub.
Proof.
  intros Hsep Hne. induction a as [|c a IH].
  - rewrite Contains_nil by done. cbn [app Contains orb].
    change (sep :: b) with ([] ++ sep :: b) at 1.
    rewrite HasPrefix_app_sep by done. by destruct sub.
  - cbn [app Contains].
    change (c :: a ++ sep :: b) with ((c :: a) ++ sep :: b).
    by rewrite HasPrefix_app_sep, IH, orb_assoc by done.
Qed.

Lemma Contains_spec (s sub : gostring) :
  Contains s sub = true ↔ ∃ a b, s = a ++ sub ++ b.
Proof.
  induction s as [|c r IH]; cbn [Contains]; rewrite orb_true_iff, HasPrefix_spec.
  - split.
    + intros [[rest ->]|?]; [|done]. by exists [], rest.
    + intros (a & b & H). left. destruct a; [|done]. by exists b.
  - rewrite IH. split.
    + intros [[rest ->]|(a & b & ->)]; [by exists [], rest|].
      by exists (c :: a), b.
    + intros ([|c' a] & b & H).
      * left. by exists b.
      * right. injection H as -> ->. by exists a, b.
Qed.

(** A text without the separator is found in the joined strings exactly
    when it is found in one of them. *)
Lemma Contains_Join (l : list gostring) (sub : gostring) (sep : ascii) :
  sep ∉ sub → sub ≠ [] →
  Contains (Strings.Join l [sep]) sub = true
  ↔ ∃ e, e ∈ l ∧ Contains e sub = true.
Proof.
  intros Hsep Hne. induction l as [|e [|e' l] IH].
  - cbn [Strings.Join]. rewrite Contains_nil by done. split; [done|].
    by intros (e & ?%elem_of_nil & _).
  - cbn [Strings.Join]. split.
    + intros H. exists e. split; [by left|done].
    + by intros (e0 & ->%list_elem_of_singleton & H).
  - change (Strings.Join (e :: e' :: l) [sep])
      with (e ++ sep :: Strings.Join (e' :: l) [sep]).
    rewrite Contains_app_sep, orb_true_iff, IH by done. split.
    + intros [H|(e0 & Hin & H)].
      * exists e. split; [by left|done].
      * exists e0. split; [by right|done].
    + intros (e0 & [->|Hin]%elem_of_cons & H); [by left|].
      right. by exists e0.
Qed.

End MainLemmas.

Section MainProperties.

Context {E : Env}.

Lemma credentials_text (os_Environ : list gostring) :
  Contains (Strings.Join os_Environ [","]) (str "OS_USERNAME=") = true
  ↔ ∃ e a b, e ∈ os_Environ ∧ e = a ++ str "OS_USERNAME=" ++ b.
Proof.
  rewrite Contains_Join; [| |done].
  - split.
    + intros (e & Hin & (a & b & ->)%Contains_spec). by eexists _, a, b.
    + intros (e & a & b & Hin & ->). eexists. split; [done|].
      apply Contains_spec. by exists a, b.
  - intros H%list_elem_of_In. vm_compute in H. intuition discriminate.
Qed.

(** X25.  Once the arguments are handled, [main] goes on exactly when one
    entry of the environment contains the text [OS_USERNAME=] somewhere,
    in the name or in the value of any variable: otherwise it exits
    with status 1 and has spawned no process.  When the text is found, it
    exits with status 1 if [neutron] is not found on the path, and runs
    the expanded commands from the empty list of results otherwise; what
    it prints are the records of that run. *)
Theorem main_credentials_check (fuel : nat)
    (os_Args os_Environ cmdList : list gostring) (lookPath : gostring + gostring) :
  HandleArguments fuel os_Args [] = Goes (Ret cmdList) →
  ((¬ ∃ e a b, e ∈ os_Environ ∧ e = a ++ str "OS_USERNAME=" ++ b) →
   main fuel os_Args os_Environ lookPath = (Exits 1, initWorld))
  ∧ ((∃ e a b, e ∈ os_Environ ∧ e = a ++ str "OS_USERNAME=" ++ b) →
     (∀ err, lookPath = inr err →
             main fuel os_Args os_Environ lookPath = (Exits 1, initWorld))
     ∧ (∀ neutron, lookPath = inl neutron →
          snd (main fuel os_Args os_Environ lookPath)
          = snd (RunCmds fuel cmdList initWorld)
          ∧ fst (main fuel os_Args os_Environ lookPath)
            = Goes (let! _ := fst (RunCmds fuel cmdList initWorld) in
                    Ret (cmdResults (snd (RunCmds fuel cmdList initWorld)))))).
Proof.
  intros Hargs. unfold main. rewrite Hargs. split.
  - intros Hno.
    destruct (Contains _ _) eqn:Hc; [|done].
    by apply credentials_text in Hc.
  - intros Hyes%credentials_text. rewrite Hyes. cbn [negb]. split.
    + by intros err ->.
    + intros neutron ->. by destruct (RunCmds fuel cmdList initWorld).
Qed.

(** X26.  [main] spawns a process only after the arguments have been
    handled without an exit, the environment check has passed and
    [neutron] has been found: in every other case it ends without having
    spawned or recorded anything. *)
Theorem main_spawns_after_checks (fuel : nat)
    (os_Args os_Environ : list gostring) (lookPath : gostring + gostring) :
  spawned (snd (main fuel os_Args os_Environ lookPath)) ≠ []
  ∨ cmdResults (snd (main fuel os_Args os_Environ lookPath)) ≠ [] →
  ∃ cmdList neutron,
    HandleArguments fuel os_Args [] = Goes (Ret cmdList)
    ∧ str "--" ∈ os_Args
    ∧ (∃ e a b, e ∈ os_Environ ∧ e = a ++ str "OS_USERNAME=" ++ b)
    ∧ lookPath = inl neutron
    ∧ cmdList ≠ []
    ∧ snd (main fuel os_Args os_Environ lookPath)
      = snd (RunCmds fuel cmdList initWorld).
Proof.
  unfold main. intros Hsp.
  assert (str "--" ∈ os_Args
          ∨ HandleArguments fuel os_Args [] = Exits 1) as Hsep.
  { unfold HandleArguments.
    destruct (Z.eqb_spec (IndexOf os_Args (str "--")) (-1)) as [Heq|Hne];
      [by right|left].
    destruct (decide (str "--" ∈ os_Args)) as [|Hno]; [done|].
    by apply IndexOf_absent in Hno. }
  destruct (HandleArguments fuel os_Args []) as [code|[cmdList|msg|]] eqn:Hargs;
    try (cbn in Hsp; by destruct Hsp).
  destruct Hsep as [Hsep|?]; [|done].
  destruct (Contains _ _) eqn:Hc; [|cbn in Hsp; by destruct Hsp].
  cbn [negb] in *. destruct lookPath as [neutron|err];
    [|cbn in Hsp; by destruct Hsp].
  exists cmdList, neutron. split_and!; try done.
  - by apply credentials_text.
  - intros ->. cbn in Hsp. by destruct Hsp.
  - by destruct (RunCmds fuel cmdList initWorld).
Qed.



End MainProperties.

Lemma main_credentials_check_witness :
  let E := exampleEnv allSucceed in
  let os_Args := [str "ops"; str "--"; str "loadbalancer-list"] in
  let os_Environ := [str "HOME=/root"; str "NOTE=see OS_USERNAME=admin"] in
  let cmdList := [str "loadbalancer-list"] in
  let lookPath : gostring + gostring := inl (str "/usr/bin/neutron") in
  ((¬ ∃ e a b, e ∈ os_Environ ∧ e = a ++ str "OS_USERNAME=" ++ b) →
   main 1 os_Args os_Environ lookPath = (Exits 1, initWorld))
  ∧ ((∃ e a b, e ∈ os_Environ ∧ e = a ++ str "OS_USERNAME=" ++ b) →
     (∀ err, lookPath = inr err →
             main 1 os_Args os_Environ lookPath = (Exits 1, initWorld))
     ∧ (∀ neutron, lookPath = inl neutron →
          snd (main 1 os_Args os_Environ lookPath)
          = snd (RunCmds 1 cmdList initWorld)
          ∧ fst (main 1 os_Args os_Environ lookPath)
            = Goes (let! _ := fst (RunCmds 1 cmdList initWorld) in
                    Ret (cmdResults (snd (RunCmds 1 cmdList initWorld)))))).
Proof.
  intros E os_Args os_Environ cmdList lookPath.
  apply (main_credentials_check (E := E) 1 os_Args os_Environ cmdList lookPath).
  reflexivity.
Defined.

Lemma main_spawns_after_checks_witness :
  let E := exampleEnv noneStarts in
  let os_Args := [str "ops"; str "--"; str "loadbalancer-list"] in
  let os_Environ := [str "OS_USERNAME=admin"] in
  let lookPath : gostring + gostring := inl (str "/usr/bin/neutron") in
  ∃ cmdList neutron,
    HandleArguments 1 os_Args [] = Goes (Ret cmdList)
    ∧ str "--" ∈ os_Args
    ∧ (∃ e a b, e ∈ os_Environ ∧ e = a ++ str "OS_USERNAME=" ++ b)
    ∧ lookPath = inl neutron
    ∧ cmdList ≠ []
    ∧ snd (main 1 os_Args os_Environ lookPath)
      = snd (RunCmds 1 cmdList initWorld).
Proof.
  intros E os_Args os_Environ lookPath.
  apply (main_spawns_after_checks (E := E) 1 os_Args os_Environ lookPath).
  left. vm_compute. discriminate.
Defined.

